(** * Rio glyph exporter: the contour pipeline of [export_svg_glyphs.py]

    A shallow embedding of the geometry pipeline of
    [Cursive Font Writing/export_svg_glyphs.py]: contour segmentation,
    [_split_contour_at_midpoint], [_reverse_contour_manually], the
    close-path tracking of [_glyph_to_svg_commands] and
    [get_vertical_metrics].

    Modelling conventions.
    - A recorded pen command is the pair the script handles: an operator
      name and a tuple of operands, each operand a point or Python's [None].
    - Coordinates are rationals ([Q]); the script's floats are idealised as
      exact numbers, the tolerance [0.5] being [1#2].
    - A Python exception raised by the script's own code is a [Raise] result.
    - The fontTools pens are outside the script.  What the script sends to
      [transform_pen] is modelled as the list of calls that reach [svg_pen],
      each point operand mapped through the affine matrix given to
      [TransformPen]. *)

From Stdlib Require Import ZArith QArith Qabs NArith Ascii HexadecimalString.
From stdpp Require Import base option list strings gmap.

Local Close Scope Q_scope.
Local Open Scope string_scope.
Local Open Scope list_scope.
Local Open Scope nat_scope.

(** ** Data model *)

Definition point : Type := Q * Q.

(** An operand of a pen command: a point, or [None]. *)
Definition operand : Type := option point.

(** [(operator, operands)] as stored in [RecordingPen.value]. *)
Definition command : Type := string * list operand.

Definition pt (x y : Z) : operand := Some (inject_Z x, inject_Z y).

(** ** Python exceptions and results *)

Inductive exn : Type := IndexError | ValueError.

Inductive res (A : Type) : Type :=
  | Ok (a : A)
  | Raise (e : exn).
Arguments Ok {A} a.
Arguments Raise {A} e.

#[global] Instance res_ret : MRet res := fun A a => Ok a.
#[global] Instance res_bind : MBind res := fun A B f m =>
  match m with
  | Ok a => f a
  | Raise e => Raise e
  end.

(** The call raises an exception. *)
Definition raises {A} (r : res A) : Prop := exists e, r = Raise e.

(** ** Python sequence indexing *)

(** [l[i]] for a list or tuple: a negative index counts from the end, an
    index out of range raises [IndexError]. *)
Definition py_index {A} (l : list A) (i : Z) : res A :=
  let n := Z.of_nat (length l) in
  let j := if (i <? 0)%Z then (n + i)%Z else i in
  if ((0 <=? j)%Z && (j <? n)%Z)%bool
  then match l !! Z.to_nat j with
       | Some a => Ok a
       | None => Raise IndexError
       end
  else Raise IndexError.

(** ** Operator classes *)

Definition is_moveTo (op : string) : bool := bool_decide (op = "moveTo").

(** [op in ("closePath", "endPath")] *)
Definition is_close (op : string) : bool :=
  bool_decide (op = "closePath") || bool_decide (op = "endPath").

(** A drawing command: the third branch of the scan in
    [_split_contour_at_midpoint]. *)
Definition is_drawing (c : command) : bool :=
  negb (is_moveTo c.1) && negb (is_close c.1).

(** ** [_split_contour_at_midpoint] *)

(** The [for op, operands in contour] scan, threading [move_to],
    [close_op] and [drawing_ops]. *)
Fixpoint split_scan (contour : list command)
    (move_to close_op : option command) (drawing_ops : list command)
    : option command * option command * list command :=
  match contour with
  | [] => (move_to, close_op, drawing_ops)
  | (op, operands) :: rest =>
      if is_moveTo op then
        split_scan rest (Some (op, operands)) close_op drawing_ops
      else if is_close op then
        split_scan rest move_to (Some (op, operands)) drawing_ops
      else
        split_scan rest move_to close_op (drawing_ops ++ [(op, operands)])
  end.

Definition _split_contour_at_midpoint (contour : list command) : list command :=
  if length contour <? 3 then contour
  else
    let '(move_to, close_op, drawing_ops) := split_scan contour None None [] in
    match drawing_ops with
    | [] => contour
    | _ :: _ =>
        let midpoint := length drawing_ops / 2 in
        let first_half := take midpoint drawing_ops in
        match move_to with
        | Some m => [m]
        | None => []
        end ++ first_half
    end.


(** ** [_get_last_point] *)

(** [for point in reversed(operands): if point is not None: return point] *)
Fixpoint last_not_none (reversed_operands : list operand) : operand :=
  match reversed_operands with
  | [] => None
  | Some p :: _ => Some p
  | None :: rest => last_not_none rest
  end.

Definition _get_last_point (operator : string) (operands : list operand) : operand :=
  match operands with
  | [] => None
  | _ :: _ =>
      if bool_decide (operator = "qCurveTo") then last_not_none (reverse operands)
      else default None (last operands)
  end.

(** ** [_reverse_contour_manually] *)

(** The loop that builds [points], one operation at a time. *)
Fixpoint collect_points (operations : list command) (points : list operand)
    : res (list operand) :=
  match operations with
  | [] => Ok points
  | (op, operands) :: rest =>
      if bool_decide (op = "lineTo") then
        p ← py_index operands 0;
        collect_points rest (points ++ [p])
      else if bool_decide (op = "curveTo") then
        p ← py_index operands (-1);
        collect_points rest (points ++ [p])
      else if bool_decide (op = "qCurveTo") then
        match last_not_none (reverse operands) with
        | Some q => collect_points rest (points ++ [Some q])
        | None => collect_points rest points
        end
      else collect_points rest points
  end.

(** [[pt for pt in operands if pt is not None]] *)
Definition not_none (operands : list operand) : list operand :=
  filter (fun o => is_Some o) operands.

(** The loop over [enumerate(reversed(operations))]; [i] is the loop index
    and [result] the list built so far. *)
Fixpoint reverse_loop (reversed_operations : list command) (i : Z)
    (points : list operand) (result : list command) : res (list command) :=
  match reversed_operations with
  | [] => Ok result
  | (op, operands) :: rest =>
      prev_point ← py_index points (- (i + 2))%Z;
      if bool_decide (op = "lineTo") then
        reverse_loop rest (i + 1)%Z points (result ++ [("lineTo", [prev_point])])
      else if bool_decide (op = "curveTo") then
        match operands with
        | [cp1; cp2; _] =>
            reverse_loop rest (i + 1)%Z points
              (result ++ [("curveTo", [cp2; cp1; prev_point])])
        | _ => Raise ValueError
        end
      else if bool_decide (op = "qCurveTo") then
        let reversed_pts := reverse (not_none operands) in
        reverse_loop rest (i + 1)%Z points
          (result ++ [("qCurveTo", reversed_pts ++ [prev_point])])
      else reverse_loop rest (i + 1)%Z points result
  end.

(** [operations[:-1]] when the last operator is [closePath] or [endPath]. *)
Definition strip_close (operations : list command) : list command :=
  match last operations with
  | Some (op, _) => if is_close op then take (length operations - 1) operations
                    else operations
  | None => operations
  end.

Definition _reverse_contour_manually (contour : list command) : res (list command) :=
  if length contour <? 2 then Ok contour
  else match contour with
  | [] => Ok contour
  | (op0, operands0) :: rest =>
      if negb (is_moveTo op0) then Ok contour
      else
        move_to_point ← py_index operands0 0;
        let operations := strip_close rest in
        match operations with
        | [] => Ok contour
        | _ :: _ =>
            points ← collect_points operations [move_to_point];
            start ← py_index points (-1);
            reverse_loop (reverse operations) 0 points [("moveTo", [start])]
        end
  end.

(** ** [_points_close] *)

(** The comparison in exact arithmetic.  It is the script's own on integer
    coordinates, where Python subtracts without rounding. *)
Definition tolerance : Q := 1 # 2.

Definition _points_close (p1 p2 : point) : bool :=
  Qle_bool (Qabs (p1.1 - p2.1)%Q) tolerance
  && Qle_bool (Qabs (p1.2 - p2.2)%Q) tolerance.

(** ** The pens *)

(** fontTools' affine transform [(xx, xy, yx, yy, dx, dy)] applied to a
    point. *)
Definition transformPoint (t : Q * Q * Q * Q * Q * Q) (p : point) : point :=
  let '(xx, xy, yx, yy, dx, dy) := t in
  ((xx * p.1 + yx * p.2 + dx)%Q, (xy * p.1 + yy * p.2 + dy)%Q).

(** The matrix of [TransformPen(svg_pen, (1, 0, 0, -1, 0, ascent))]. *)
Definition flip_matrix (ascent : Z) : Q * Q * Q * Q * Q * Q :=
  (1%Q, 0%Q, 0%Q, (-1)%Q, 0%Q, inject_Z ascent).

(** A call on [transform_pen], as it reaches [svg_pen]: same operator,
    every point transformed, [None] kept. *)
Definition pen_call (ascent : Z) (cmd : command) : command :=
  (cmd.1, (fun o : operand => transformPoint (flip_matrix ascent) <$> o) <$> cmd.2).

(** ** The emitting loop of [_glyph_to_svg_commands] *)

Record tracking : Type := Tracking {
  contour_start : option point;
  last_point : option point;
  qcurve_closed : bool
}.

Definition no_contour : tracking := Tracking None None false.

(** [if maybe_point is not None: last_point = maybe_point] *)
Definition update_last (maybe_point last : option point) : option point :=
  match maybe_point with
  | Some p => Some p
  | None => last
  end.

(** The test that guards [transform_pen.closePath()]. *)
Definition close_guard (st : tracking) : bool :=
  match contour_start st, last_point st with
  | Some s, Some l => _points_close l s || qcurve_closed st
  | _, _ => false
  end.

(** One iteration of [for operator, operands in processed_value]: the new
    tracking state and the calls the script makes on [transform_pen].  An
    exception is the script's own ([operands[0]] of a [moveTo] without
    operands); what the pen does with a call, including refusing it, is not
    in this model, so a result [Ok] says what the script forwards when the
    pen accepts every call. *)
Definition emit_step (ascent : Z) (st : tracking) (cmd : command)
    : res (tracking * list command) :=
  let '(operator, operands) := cmd in
  if bool_decide (operator = "moveTo") then
    p ← py_index operands 0;
    Ok (Tracking p p false, [pen_call ascent cmd])
  else if bool_decide (operator = "lineTo") || bool_decide (operator = "curveTo") then
    let maybe_point := _get_last_point operator operands in
    Ok (Tracking (contour_start st) (update_last maybe_point (last_point st)) false,
        [pen_call ascent cmd])
  else if bool_decide (operator = "qCurveTo") then
    match last operands, contour_start st with
    | Some None, Some s =>
        Ok (Tracking (contour_start st) (contour_start st) true,
            [pen_call ascent cmd])
    | _, _ =>
        let maybe_point := _get_last_point operator operands in
        Ok (Tracking (contour_start st) (update_last maybe_point (last_point st)) false,
            [pen_call ascent cmd])
    end
  else if bool_decide (operator = "closePath") then
    Ok (no_contour, if close_guard st then [("closePath", [])] else [])
  else if bool_decide (operator = "endPath") then
    Ok (no_contour, [])
  else
    let maybe_point := _get_last_point operator operands in
    Ok (Tracking (contour_start st) (update_last maybe_point (last_point st)) false,
        [pen_call ascent cmd]).

Fixpoint emit_loop (ascent : Z) (st : tracking) (processed_value : list command)
    : res (tracking * list command) :=
  match processed_value with
  | [] => Ok (st, [])
  | cmd :: rest =>
      '(st1, out1) ← emit_step ascent st cmd;
      '(st2, out2) ← emit_loop ascent st1 rest;
      Ok (st2, out1 ++ out2)
  end.

(** ** Contour segmentation in [_glyph_to_svg_commands] *)

(** The first loop of [_glyph_to_svg_commands], with the treatment of a
    finished contour as a parameter: cut at every [moveTo] that finds a
    non-empty buffer, flush the last buffer at the end. *)
Section Segmentation.
Context (process : list command -> res (list command)).

Fixpoint segment_loop (value : list command)
    (contours : list (list command)) (current_contour : list command)
    : res (list (list command)) :=
  match value with
  | [] =>
      match current_contour with
      | [] => Ok contours
      | _ :: _ => c ← process current_contour; Ok (contours ++ [c])
      end
  | (operator, operands) :: rest =>
      if bool_decide (operator = "moveTo") then
        match current_contour with
        | [] => segment_loop rest contours [(operator, operands)]
        | _ :: _ =>
            c ← process current_contour;
            segment_loop rest (contours ++ [c]) [(operator, operands)]
        end
      else segment_loop rest contours (current_contour ++ [(operator, operands)])
  end.
End Segmentation.

(** The script's treatment of a finished contour: split, then reverse. *)
Definition process_contour (current_contour : list command) : res (list command) :=
  _reverse_contour_manually (_split_contour_at_midpoint current_contour).

(** The Contour Segmenter alone: the same loop, contours left as cut. *)
Fixpoint segment (value : list command)
    (contours : list (list command)) (current_contour : list command)
    : list (list command) :=
  match value with
  | [] =>
      match current_contour with
      | [] => contours
      | _ :: _ => contours ++ [current_contour]
      end
  | (operator, operands) :: rest =>
      if bool_decide (operator = "moveTo") then
        match current_contour with
        | [] => segment rest contours [(operator, operands)]
        | _ :: _ => segment rest (contours ++ [current_contour]) [(operator, operands)]
        end
      else segment rest contours (current_contour ++ [(operator, operands)])
  end.

Definition contours_of (value : list command) : list (list command) :=
  segment value [] [].

(** ** [_glyph_to_svg_commands]

    [value] is [recording_pen.value]; the result is the list of calls
    received by [svg_pen]. *)
Definition _glyph_to_svg_commands (value : list command) (ascent : Z)
    : res (list command) :=
  contours ← segment_loop process_contour value [] [];
  let processed_value := concat contours in
  '(_, calls) ← emit_loop ascent no_contour processed_value;
  Ok calls.

(** ** [get_vertical_metrics] *)

(** The tables the function reads: [head.unitsPerEm], and, when present,
    [(ascent, descent)] of [hhea] and [(sTypoAscender, sTypoDescender)] of
    [OS/2]. *)
Record font : Type := Font {
  unitsPerEm : Z;
  hhea : option (Z * Z);
  os2 : option (Z * Z)
}.

(** [a or b] for an optional integer [a]: [None] and [0] are falsy. *)
Definition py_or (a : option Z) (b : Z) : Z :=
  match a with
  | Some v => if (v =? 0)%Z then b else v
  | None => b
  end.

Definition get_vertical_metrics (f : font) : Z * Z * Z :=
  let units_per_em := unitsPerEm f in
  let '(ascent, descent) :=
    match hhea f with
    | Some (a, d) => (Some a, Some d)
    | None => (None, None)
    end in
  let '(ascent, descent) :=
    match os2 f with
    | Some (typo_asc, typo_desc) =>
        if bool_decide (ascent = None) || bool_decide (descent = None)
        then (Some (py_or ascent typo_asc), Some (py_or descent typo_desc))
        else (ascent, descent)
    | None => (ascent, descent)
    end in
  match ascent, descent with
  | Some a, Some d => (units_per_em, a, d)
  | _, _ => (units_per_em, units_per_em, (- units_per_em) `div` 4)%Z
  end.

(** ** [_remove_duplicate_segments] *)

(** The [while i < len(recorded_value)] loop; [todo] is
    [recorded_value[i:]], so that [i + 1 < len(recorded_value)] reads
    "[todo] has a second element". *)
Fixpoint remove_duplicate_loop (todo : list command) (result : list command)
    : list command :=
  match todo with
  | [] => result
  | (operator, operands) :: rest =>
      if is_moveTo operator || is_close operator then
        remove_duplicate_loop rest (result ++ [(operator, operands)])
      else
        match rest with
        | _ :: _ => remove_duplicate_loop rest (result ++ [(operator, operands)])
        | [] => remove_duplicate_loop rest (result ++ [(operator, operands)])
        end
  end.

Definition _remove_duplicate_segments (recorded_value : list command)
    : list command :=
  remove_duplicate_loop recorded_value [].

(** ** [SPECIAL_FILENAMES] and [sanitize_filename] *)

(** The entries of the dictionary, keyed by code point ([ord] of the
    character of each source line, in source order). *)
Definition special_filenames_items : list (Z * string) :=
  [(32, "space");
   (33, "exclamation_mark");
   (34, "quotation_mark");
   (35, "hash");
   (36, "dollar");
   (37, "percent");
   (38, "ampersand");
   (39, "apostrophe");
   (40, "left_parenthesis");
   (41, "right_parenthesis");
   (42, "asterisk");
   (43, "plus");
   (44, "comma");
   (45, "hyphen");
   (46, "period");
   (47, "slash");
   (58, "colon");
   (59, "semicolon");
   (60, "less_than");
   (61, "equals");
   (62, "greater_than");
   (63, "question_mark");
   (64, "at_sign");
   (91, "left_bracket");
   (92, "backslash");
   (93, "right_bracket");
   (94, "caret");
   (95, "underscore");
   (96, "grave");
   (123, "left_brace");
   (124, "vertical_bar");
   (125, "right_brace");
   (126, "tilde")]%Z.

Definition SPECIAL_FILENAMES : gmap Z string :=
  list_to_map special_filenames_items.

(** [str.lower()] on the ASCII letters, the only letters of a Unicode
    character name. *)
Definition lower_ascii (a : ascii) : ascii :=
  let n := nat_of_ascii a in
  if (65 <=? n) && (n <=? 90) then ascii_of_nat (n + 32) else a.

Fixpoint map_string (f : ascii -> ascii) (s : string) : string :=
  match s with
  | EmptyString => EmptyString
  | String a rest => String (f a) (map_string f rest)
  end.

Definition lower (s : string) : string := map_string lower_ascii s.

(** [s.replace(old, new)] for one-character [old] and [new]. *)
Definition replace (old new : ascii) (s : string) : string :=
  map_string (fun a => if Ascii.eqb a old then new else a) s.

(** [f"{codepoint:04x}"]: lower-case hexadecimal, padded with zeros to four
    digits. *)
Definition format_04x (codepoint : Z) : string :=
  let digits := NilZero.string_of_uint (N.to_hex_uint (Z.to_N codepoint)) in
  String.concat "" (List.repeat "0" (4 - String.length digits)) +:+ digits.

(** The character is given by its code point, [ord(char)].  What Python
    and [unicodedata] answer about it is left open: [isalpha], [isupper]
    and [isalnum] are the [str] methods, [unicodedata_name] is
    [unicodedata.name(char, "")], and [chr] is the text of the character
    as it is written into the file name. *)
Section Sanitize.
Context (isalpha isupper isalnum : Z -> bool).
Context (unicodedata_name : Z -> string).
Context (chr : Z -> string).

Definition sanitize_filename (codepoint : Z) : string :=
  let char := chr codepoint in
  if isalpha codepoint && isupper codepoint then "Capital-" +:+ char
  else if isalnum codepoint then char
  else match SPECIAL_FILENAMES !! codepoint with
       | Some name => name
       | None =>
           let unicode_name := unicodedata_name codepoint in
           if negb (String.eqb unicode_name "") then
             replace "-" "_" (replace " " "_" (lower unicode_name))
           else "u" +:+ format_04x codepoint
       end.
End Sanitize.

(** * Vocabulary of the statements *)

(** ** Contours *)

(** The drawing commands of a contour, in order: everything that is not
    [moveTo], [closePath] or [endPath]. *)
Definition drawing_commands (contour : list command) : list command :=
  List.filter is_drawing contour.

(** At most one trailing [closePath]/[endPath]. *)
Definition trailing (tl : list command) : Prop :=
  tl = [] \/ exists cl, tl = [cl] /\ is_close cl.1 = true.

(** ** Reversal *)

(** The on-curve point sequence the Reverser rebuilds for a contour: its
    [points] list. *)
Definition contour_points (contour : list command) : res (list operand) :=
  match contour with
  | [] => Ok []
  | (_, operands0) :: rest =>
      move_to_point ← py_index operands0 0;
      collect_points (strip_close rest) [move_to_point]
  end.

(** A [lineTo] with its one operand, or a [curveTo] with its three. *)
Definition line_or_curve (c : command) : Prop :=
  (c.1 = "lineTo" /\ length c.2 = 1) \/ (c.1 = "curveTo" /\ length c.2 = 3).

(** The final operand of a command. *)
Definition endpoint (c : command) : operand := default None (last c.2).

(** The command the Reverser emits for [c] when [prev] precedes it. *)
Definition turned (c : command) (prev : operand) : command :=
  if bool_decide (c.1 = "lineTo") then ("lineTo", [prev])
  else match c.2 with
       | [cp1; cp2; _] => ("curveTo", [cp2; cp1; prev])
       | _ => c
       end.

(** Where a path from [p] along [ops] ends. *)
Fixpoint final_point (p : operand) (ops : list command) : operand :=
  match ops with
  | [] => p
  | c :: ops' => final_point (endpoint c) ops'
  end.

(** The drawing commands of the reversed path. *)
Fixpoint turned_back (p : operand) (ops : list command) : list command :=
  match ops with
  | [] => []
  | c :: ops' => turned_back (endpoint c) ops' ++ [turned c p]
  end.

(** An operator that neither loop of the Reverser has a branch for. *)
Definition unrecognized (op : string) : Prop :=
  op <> "lineTo" /\ op <> "curveTo" /\ op <> "qCurveTo".

#[local] Instance unrecognized_dec (op : string) : Decision (unrecognized op).
Proof. unfold unrecognized. apply _. Defined.

(** The kinds of command the Reverser writes. *)
Definition reversed_kind (c : command) : Prop :=
  c.1 = "moveTo" \/ c.1 = "lineTo" \/ c.1 = "curveTo" \/ c.1 = "qCurveTo".

(** ** Close-path detection *)

(** The tracked current point lies within the tolerance of the tracked
    [moveTo] point. *)
Definition within_tolerance (st : tracking) : bool :=
  match contour_start st, last_point st with
  | Some s, Some l => _points_close l s
  | _, _ => false
  end.

(** A [qCurveTo] whose final operand is [None]. *)
Definition absent_final (c : command) : bool :=
  bool_decide (c.1 = "qCurveTo")
  && match last c.2 with
     | Some None => true
     | _ => false
     end.

(** The rule as the specification words it. *)
Definition close_rule_claimed (st : tracking) (prev : command) : bool :=
  within_tolerance st || absent_final prev.

(** The rule the loop follows: the [qCurveTo] case counts only while a
    [moveTo] point is tracked. *)
Definition close_rule (st : tracking) (prev : command) : bool :=
  within_tolerance st
  || match contour_start st with
     | Some _ => absent_final prev
     | None => false
     end.

(** ** The end-to-end scenario *)

(** The synthetic outline of the end-to-end scenario. *)
Definition retrace_outline : list command :=
  [("moveTo", [pt 0 0]); ("lineTo", [pt 50 0]); ("lineTo", [pt 100 50]);
   ("lineTo", [pt 50 0]); ("lineTo", [pt 0 0]); ("closePath", [])].

(** The points a list of pen calls passes through: the last operand of each
    call that has operands. *)
Definition path_points (calls : list command) : list operand :=
  omap (fun c : command => last c.2) calls.

(** No call of the list is a [closePath]. *)
Definition no_close (calls : list command) : Prop :=
  Forall (fun c : command => c.1 <> "closePath") calls.

(** ** Segments *)

Definition not_moveTo (c : command) : Prop := is_moveTo c.1 = false.

Definition starts_with_moveTo (contour : list command) : Prop :=
  exists mv rest, contour = mv :: rest /\ is_moveTo mv.1 = true.

(** A contour as the Segmenter cuts it after a [moveTo]: the [moveTo], then
    no further [moveTo]. *)
Definition moveTo_headed (contour : list command) : Prop :=
  exists mv rest,
    contour = mv :: rest /\ is_moveTo mv.1 = true /\ Forall not_moveTo rest.

(** Neither [closePath] nor [endPath]. *)
Definition not_close (c : command) : Prop := is_close c.1 = false.

(** The last [moveTo] of a command list, the one the Splitter keeps. *)
Definition last_moveTo (contour : list command) : option command :=
  last (List.filter (fun c : command => is_moveTo c.1) contour).

(** An operation for which the Reverser records no point. *)
Definition records_no_point (c : command) : Prop :=
  unrecognized c.1
  \/ (c.1 = "qCurveTo" /\ last_not_none (reverse c.2) = None).

(** A [curveTo] that does not carry exactly three operands. *)
Definition malformed_curveTo (c : command) : Prop :=
  c.1 = "curveTo" /\ length c.2 <> 3.

(** ** The emitting loop *)

(** Whether a [moveTo] point is being tracked, as a count. *)
Definition tracked (st : tracking) : nat :=
  match contour_start st with
  | Some _ => 1
  | None => 0
  end.

(** Number of [closePath] calls in a list of pen calls. *)
Definition close_calls (calls : list command) : nat :=
  length (List.filter (fun c : command => bool_decide (c.1 = "closePath")) calls).

(** Number of [moveTo] commands in a command list. *)
Definition moveTo_count (value : list command) : nat :=
  length (List.filter (fun c : command => is_moveTo c.1) value).

(** The commands that are neither [closePath] nor [endPath]. *)
Definition open_commands (value : list command) : list command :=
  List.filter (fun c : command => negb (is_close c.1)) value.

(** ** File names *)

(** An ASCII digit or letter, by code point. *)
Definition ascii_alnum (codepoint : Z) : bool :=
  ((48 <=? codepoint) && (codepoint <=? 57)
   || (65 <=? codepoint) && (codepoint <=? 90)
   || (97 <=? codepoint) && (codepoint <=? 122))%Z.

(** Lower-case ASCII letters and underscores only. *)
Definition snake_case (name : string) : bool :=
  forallb (fun a : ascii =>
             let n := nat_of_ascii a in
             (97 <=? n) && (n <=? 122) || (n =? 95))
          (String.list_ascii_of_string name).

(** The name holds a given character. *)
Definition has_char (a : ascii) (name : string) : Prop :=
  In a (String.list_ascii_of_string name).

(** What the three passes of the name branch make of one character. *)
Definition name_char (a : ascii) : ascii :=
  let b := lower_ascii a in
  let c := if Ascii.eqb b " " then "_"%char else b in
  if Ascii.eqb c "-" then "_"%char else c.

(** The operators of the pen protocol, the ones [RecordingPen] records for
    an outline without components. *)
Definition pen_operator (op : string) : Prop :=
  op = "moveTo" \/ op = "lineTo" \/ op = "curveTo" \/ op = "qCurveTo"
  \/ op = "closePath" \/ op = "endPath".

(** * Properties *)

(** ** Results *)

Lemma bind_Ok {A B} (f : A -> res B) (a : A) : (Ok a ≫= f) = f a.
Proof. reflexivity. Qed.

(** ** Segmentation *)

Lemma segment_acc (value : list command) :
  forall contours current,
    segment value contours current = contours ++ segment value [] current.
Proof.
  induction value as [|[operator operands] rest IH]; intros contours current; simpl.
  - destruct current; [by rewrite app_nil_r | done].
  - case_bool_decide; [destruct current|]; auto.
    rewrite (IH (contours ++ _)), (IH [_]). by rewrite <-app_assoc.
Qed.

Lemma concat_segment (value : list command) :
  forall contours current,
    concat (segment value contours current) = concat contours ++ current ++ value.
Proof.
  induction value as [|[operator operands] rest IH]; intros contours current; simpl.
  - destruct current as [|c current]; rewrite ?app_nil_r; [done|].
    rewrite concat_app. simpl. by rewrite app_nil_r.
  - case_bool_decide; [destruct current as [|c current]|]; rewrite IH.
    + done.
    + rewrite concat_app. simpl. by rewrite app_nil_r, <-app_assoc.
    + by rewrite <-app_assoc.
Qed.

(** The script's loop is the Segmenter followed by the per-contour
    treatment, contour by contour. *)
Lemma segment_loop_segment (process : list command -> res (list command))
    (value : list command) :
  forall contours current,
    segment_loop process value contours current
    = (cs ← mapM process (segment value [] current); Ok (contours ++ cs)).
Proof.
  induction value as [|[operator operands] rest IH]; intros contours current; simpl.
  - destruct current as [|c current]; simpl; [by rewrite app_nil_r|].
    by destruct (process (c :: current)).
  - case_bool_decide; [destruct current as [|c current]|]; auto.
    rewrite (segment_acc rest [_]). simpl.
    destruct (process (c :: current)) as [c'|e]; simpl; [|done].
    rewrite IH.
    destruct (mapM process (segment rest [] _)) as [cs|e]; simpl; [|done].
    by rewrite <-app_assoc.
Qed.

Lemma mapM_Ok (l : list (list command)) : mapM (M := res) Ok l = Ok l.
Proof. induction l as [|c l IH]; simpl; [done|]. by rewrite IH. Qed.

(** C7. Concatenating, in order, the contours cut by the Contour Segmenter
    (the first loop of [_glyph_to_svg_commands] with the contours left
    untreated) gives back the command stream: every command lies in exactly
    one contour and the order is kept. *)
Theorem segment_concat (value : list command) :
  segment_loop Ok value [] [] = Ok (contours_of value)
  /\ concat (contours_of value) = value.
Proof.
  split.
  - rewrite segment_loop_segment. fold (contours_of value).
    by rewrite mapM_Ok.
  - unfold contours_of. by rewrite concat_segment.
Qed.

(** ** The Midpoint Splitter *)

Lemma split_short (contour : list command) :
  length contour < 3 -> _split_contour_at_midpoint contour = contour.
Proof.
  intros H. unfold _split_contour_at_midpoint.
  destruct (Nat.ltb_spec (length contour) 3); [done | lia].
Qed.

Lemma split_scan_drawing (contour : list command) :
  forall move_to close_op drawing_ops,
    (split_scan contour move_to close_op drawing_ops).2
    = drawing_ops ++ drawing_commands contour.
Proof.
  unfold drawing_commands.
  induction contour as [|[op operands] rest IH]; intros mv cl ds; simpl.
  - by rewrite app_nil_r.
  - unfold is_drawing at 1. simpl.
    destruct (is_moveTo op); simpl; [by rewrite IH|].
    destruct (is_close op); simpl; rewrite IH; [done|].
    by rewrite <-app_assoc.
Qed.

Lemma split_scan_move_to (contour : list command) :
  forall move_to close_op drawing_ops,
    Forall (fun c => is_moveTo c.1 = false) contour ->
    (split_scan contour move_to close_op drawing_ops).1.1 = move_to.
Proof.
  induction contour as [|[op operands] rest IH]; intros mv cl ds Hno; simpl; [done|].
  inversion Hno as [|? ? Hop Hrest]; subst. simpl in Hop. rewrite Hop.
  destruct (is_close op); by rewrite IH.
Qed.

Lemma drawing_not_moveTo (c : command) : is_drawing c = true -> is_moveTo c.1 = false.
Proof. unfold is_drawing. destruct (is_moveTo c.1); simpl; [done|done]. Qed.

Lemma close_not_moveTo (op : string) : is_close op = true -> is_moveTo op = false.
Proof.
  unfold is_close, is_moveTo. intros H.
  apply orb_true_iff in H as [H|H]; apply bool_decide_eq_true in H; subst; done.
Qed.

Lemma close_not_drawing (c : command) : is_close c.1 = true -> is_drawing c = false.
Proof. unfold is_drawing. intros ->. by rewrite andb_false_r. Qed.

Lemma drawing_commands_all (ds : list command) :
  Forall (fun c => is_drawing c = true) ds -> drawing_commands ds = ds.
Proof.
  unfold drawing_commands. induction 1 as [|c ds Hc _ IH]; [done|].
  simpl. by rewrite Hc, IH.
Qed.

Lemma drawing_commands_trailing (tl : list command) :
  trailing tl -> drawing_commands tl = [].
Proof.
  unfold drawing_commands.
  intros [->|(cl & -> & Hcl)]; [done|].
  simpl. by rewrite (close_not_drawing _ Hcl).
Qed.

Lemma drawing_commands_contour (mv : command) (ds tl : list command) :
  is_moveTo mv.1 = true ->
  Forall (fun c => is_drawing c = true) ds ->
  trailing tl ->
  drawing_commands (mv :: ds ++ tl) = ds.
Proof.
  intros Hmv Hds Htl. unfold drawing_commands.
  simpl. unfold is_drawing at 1. rewrite Hmv. simpl.
  rewrite List.filter_app. fold (drawing_commands ds). fold (drawing_commands tl).
  rewrite drawing_commands_all, drawing_commands_trailing by done.
  by rewrite app_nil_r.
Qed.

(** C2. For a contour (a [moveTo], drawing commands, at most one trailing
    [closePath]/[endPath]): with fewer than 3 commands the Midpoint Splitter
    returns it unchanged; otherwise, with [n] the number of drawing commands,
    the output is the [moveTo] followed by the first [n / 2] drawing commands
    in their order, the trailing close dropped. *)
Theorem split_midpoint_spec (mv : command) (ds tl : list command)
    (Hmv : is_moveTo mv.1 = true)
    (Hds : Forall (fun c => is_drawing c = true) ds)
    (Htl : trailing tl) :
  let contour := mv :: ds ++ tl in
  let n := length (drawing_commands contour) in
  drawing_commands contour = ds
  /\ (length contour < 3 -> _split_contour_at_midpoint contour = contour)
  /\ (3 <= length contour ->
      _split_contour_at_midpoint contour
      = mv :: take (n / 2) (drawing_commands contour)).
Proof.
  intros contour n.
  assert (Hdc : drawing_commands contour = ds)
    by (by apply drawing_commands_contour).
  split; [done|]. split; [apply split_short|].
  intros Hlen. subst n. rewrite Hdc.
  unfold _split_contour_at_midpoint.
  destruct (Nat.ltb_spec (length contour) 3) as [|_]; [lia|].
  pose proof (split_scan_drawing contour None None []) as Hdraw.
  rewrite Hdc, app_nil_l in Hdraw.
  assert (Hmove : (split_scan contour None None []).1.1 = Some mv).
  { subst contour. destruct mv as [op operands]. simpl in *. rewrite Hmv.
    apply split_scan_move_to. apply Forall_app. split.
    - eapply Forall_impl; [exact Hds|]. intros c. apply drawing_not_moveTo.
    - destruct Htl as [->|(cl & -> & Hcl)]; [done|].
      constructor; [by apply close_not_moveTo | done]. }
  destruct (split_scan contour None None []) as [[move_to close_op] drawing_ops].
  cbn [fst snd] in Hdraw, Hmove. subst move_to drawing_ops.
  destruct ds as [|d ds]; [|done].
  exfalso. subst contour. simpl in Hlen.
  destruct Htl as [->|(cl & -> & _)]; simpl in Hlen; lia.
Qed.

Lemma split_midpoint_spec_witness :
  let contour := [("moveTo", [pt 0 0]); ("lineTo", [pt 50 0]); ("lineTo", [pt 100 50]);
                  ("lineTo", [pt 50 0]); ("lineTo", [pt 0 0]); ("closePath", [])] in
  3 <= length contour
  /\ _split_contour_at_midpoint contour
     = [("moveTo", [pt 0 0]); ("lineTo", [pt 50 0]); ("lineTo", [pt 100 50])].
Proof.
  intros contour. split; [simpl; lia|].
  refine (proj2 (proj2 (split_midpoint_spec ("moveTo", [pt 0 0])
    [("lineTo", [pt 50 0]); ("lineTo", [pt 100 50]);
     ("lineTo", [pt 50 0]); ("lineTo", [pt 0 0])]
    [("closePath", [])] _ _ _)) _).
  - reflexivity.
  - repeat constructor.
  - right. exists ("closePath", []). split; reflexivity.
  - simpl. lia.
Defined.

(** ** Indexing *)

Lemma py_index_0 {A} (x : A) (l : list A) : py_index (x :: l) 0 = Ok x.
Proof. reflexivity. Qed.

(** [(l1 ++ x :: l2)[-(len(l2) + 1)]] is [x]. *)
Lemma py_index_from_end {A} (l1 l2 : list A) (x : A) (i : Z) :
  i = Z.of_nat (length l2) ->
  py_index (l1 ++ x :: l2) (- (i + 1))%Z = Ok x.
Proof.
  intros ->. unfold py_index.
  rewrite length_app. simpl length.
  destruct (Z.ltb_spec (- (Z.of_nat (length l2) + 1)) 0) as [_|]; [|lia].
  set (j := (Z.of_nat (length l1 + S (length l2)) + - (Z.of_nat (length l2) + 1))%Z).
  assert (Hj : j = Z.of_nat (length l1)) by (subst j; lia).
  rewrite Hj.
  destruct (Z.leb_spec 0 (Z.of_nat (length l1))) as [_|]; [|lia].
  destruct (Z.ltb_spec (Z.of_nat (length l1)) (Z.of_nat (length l1 + S (length l2))))
    as [_|]; [|lia].
  simpl. rewrite Nat2Z.id, list_lookup_middle; done.
Qed.

(** A negative index past the front of the list raises. *)
Lemma py_index_before_start {A} (l : list A) (k : Z) :
  (Z.of_nat (length l) < k)%Z -> py_index l (- k)%Z = Raise IndexError.
Proof.
  intros Hk. unfold py_index.
  destruct (Z.ltb_spec (- k) 0) as [_|]; [|lia].
  destruct (Z.leb_spec 0 (Z.of_nat (length l) + - k)) as [|_]; [lia|done].
Qed.

Lemma py_index_length {A} (l : list A) (k : Z) (x : A) :
  (0 < k)%Z -> py_index l (- k)%Z = Ok x -> (k <= Z.of_nat (length l))%Z.
Proof.
  intros Hk Hx.
  destruct (Z.le_gt_cases k (Z.of_nat (length l))) as [|Hlt]; [done|].
  rewrite py_index_before_start in Hx by lia. done.
Qed.

(** ** The Contour Reverser on degenerate contours *)

Lemma strip_close_single (cl : command) :
  is_close cl.1 = true -> strip_close [cl] = [].
Proof. destruct cl as [op operands]. unfold strip_close. simpl. by intros ->. Qed.

Lemma reverse_degenerate (mv : command) (tl : list command) :
  is_moveTo mv.1 = true -> mv.2 <> [] -> trailing tl ->
  _reverse_contour_manually (mv :: tl) = Ok (mv :: tl).
Proof.
  intros Hmv Hops [->|(cl & -> & Hcl)]; [done|].
  destruct mv as [op [|o operands]]; [done|]. simpl in Hmv.
  unfold _reverse_contour_manually. simpl length. simpl Nat.ltb. cbv iota.
  rewrite Hmv. simpl negb. cbv iota.
  rewrite py_index_0, bind_Ok, strip_close_single by done. done.
Qed.

(** C8. A contour with no drawing command after its [moveTo] (the [moveTo]
    alone, or followed by one [closePath]/[endPath]) is returned unchanged,
    trailing close included, by both the Midpoint Splitter and the Contour
    Reverser.  The [moveTo] carries its point. *)
Theorem degenerate_contour_preserved (mv : command) (tl : list command)
    (Hmv : is_moveTo mv.1 = true)
    (Hpt : mv.2 <> [])
    (Htl : trailing tl) :
  drawing_commands (mv :: tl) = []
  /\ _split_contour_at_midpoint (mv :: tl) = mv :: tl
  /\ _reverse_contour_manually (mv :: tl) = Ok (mv :: tl)
  /\ process_contour (mv :: tl) = Ok (mv :: tl).
Proof.
  assert (Hsplit : _split_contour_at_midpoint (mv :: tl) = mv :: tl).
  { apply split_short. destruct Htl as [->|(cl & -> & _)]; simpl; lia. }
  assert (Hrev : _reverse_contour_manually (mv :: tl) = Ok (mv :: tl))
    by (by apply reverse_degenerate).
  repeat split; try done.
  - apply (drawing_commands_contour mv [] tl); [done | constructor | done].
  - unfold process_contour. by rewrite Hsplit.
Qed.

Lemma degenerate_contour_preserved_witness :
  let contour := [("moveTo", [pt 10 20]); ("closePath", [])] in
  _split_contour_at_midpoint contour = contour
  /\ _reverse_contour_manually contour = Ok contour.
Proof.
  intros contour.
  destruct (degenerate_contour_preserved ("moveTo", [pt 10 20]) [("closePath", [])])
    as (_ & Hs & Hr & _).
  - reflexivity.
  - discriminate.
  - right. exists ("closePath", []). split; reflexivity.
  - split; [exact Hs | exact Hr].
Defined.

(** ** The Contour Reverser on lines and cubic curves *)

Section LineCurve.
Implicit Types (p : operand) (c : command) (ops : list command).

Lemma final_point_app p ops1 ops2 :
  final_point p (ops1 ++ ops2) = final_point (final_point p ops1) ops2.
Proof. revert p. induction ops1 as [|c ops1 IH]; intros p; simpl; auto. Qed.

Lemma turned_back_app p ops1 ops2 :
  turned_back p (ops1 ++ ops2)
  = turned_back (final_point p ops1) ops2 ++ turned_back p ops1.
Proof.
  revert p. induction ops1 as [|c ops1 IH]; intros p; simpl.
  - by rewrite app_nil_r.
  - by rewrite IH, app_assoc.
Qed.

Lemma points_snoc p ops :
  exists front, p :: (endpoint <$> ops) = front ++ [final_point p ops].
Proof.
  revert p. induction ops as [|c ops IH]; intros p; csimpl.
  - by exists [].
  - destruct (IH (endpoint c)) as [front Hfront].
    exists (p :: front). by rewrite Hfront.
Qed.

Lemma line_or_curve_not_close c :
  line_or_curve c -> is_close c.1 = false.
Proof. by intros [[-> _]|[-> _]]. Qed.

Lemma strip_close_line_curve ops :
  Forall line_or_curve ops -> strip_close ops = ops.
Proof.
  intros Hops. unfold strip_close.
  destruct (last ops) as [[op operands]|] eqn:Hlast; [|done].
  apply last_Some in Hlast as [front ->].
  apply Forall_app in Hops as [_ Hc]. inversion Hc as [|? ? Hc' _]; subst.
  apply line_or_curve_not_close in Hc'. simpl in Hc'. by rewrite Hc'.
Qed.

Lemma collect_points_line_curve ops :
  Forall line_or_curve ops ->
  forall points, collect_points ops points = Ok (points ++ (endpoint <$> ops)).
Proof.
  induction 1 as [|[op operands] ops Hc _ IH]; intros points; simpl.
  - by rewrite app_nil_r.
  - destruct Hc as [[Hop Hlen]|[Hop Hlen]]; simpl in Hop, Hlen; subst op.
    + destruct operands as [|a [|]]; try done. simpl.
      rewrite IH. by rewrite <-app_assoc.
    + destruct operands as [|a [|b [|e [|]]]]; try done. simpl.
      rewrite IH. by rewrite <-app_assoc.
Qed.

Lemma reverse_loop_step c rest (i : Z) points result prev :
  line_or_curve c ->
  py_index points (- (i + 2))%Z = Ok prev ->
  reverse_loop (c :: rest) i points result
  = reverse_loop rest (i + 1)%Z points (result ++ [turned c prev]).
Proof.
  intros Hc Hprev. destruct c as [op operands]. simpl. rewrite Hprev, bind_Ok.
  destruct Hc as [[Hop Hlen]|[Hop Hlen]]; simpl in Hop, Hlen; subst op.
  - done.
  - destruct operands as [|a [|b [|e [|]]]]; done.
Qed.

Lemma reverse_loop_line_curve p front :
  Forall line_or_curve front ->
  forall back result,
    reverse_loop (reverse front) (Z.of_nat (length back))
      (p :: (endpoint <$> front ++ back)) result
    = Ok (result ++ turned_back p front).
Proof.
  induction front as [|c front IH] using rev_ind; intros Hfront back result.
  - simpl. by rewrite app_nil_r.
  - apply Forall_app in Hfront as [Hfront Hc].
    inversion Hc as [|? ? Hc' _]; subst.
    rewrite reverse_snoc.
    destruct (points_snoc p front) as [pts Hpts].
    assert (Hprev : py_index (p :: (endpoint <$> (front ++ [c]) ++ back))
                      (- (Z.of_nat (length back) + 2))%Z
                    = Ok (final_point p front)).
    { rewrite <-app_assoc, fmap_app, app_comm_cons, Hpts, <-app_assoc. simpl.
      replace (Z.of_nat (length back) + 2)%Z
        with (Z.of_nat (length (endpoint <$> c :: back)) + 1)%Z
        by (rewrite length_fmap; simpl; lia).
      by apply py_index_from_end. }
    rewrite (reverse_loop_step _ _ _ _ _ _ Hc' Hprev).
    replace (Z.of_nat (length back) + 1)%Z with (Z.of_nat (length (c :: back)))
      by (simpl; lia).
    rewrite <-app_assoc. simpl app at 1.
    rewrite (IH Hfront (c :: back)).
    rewrite turned_back_app. simpl. by rewrite <-app_assoc.
Qed.

(** What the Reverser returns on a [moveTo] followed by lines and cubic
    curves. *)
Lemma reverse_line_curve p ops :
  Forall line_or_curve ops ->
  _reverse_contour_manually (("moveTo", [p]) :: ops)
  = Ok (("moveTo", [final_point p ops]) :: turned_back p ops).
Proof.
  intros Hops. destruct ops as [|c ops]; [done|].
  unfold _reverse_contour_manually.
  change (length (("moveTo", [p]) :: c :: ops) <? 2) with false. cbv iota.
  change (negb (is_moveTo "moveTo")) with false. cbv iota.
  rewrite py_index_0, bind_Ok, strip_close_line_curve by done.
  rewrite collect_points_line_curve, bind_Ok by done.
  destruct (points_snoc p (c :: ops)) as [pts Hpts].
  change ([p] ++ (endpoint <$> c :: ops)) with (p :: (endpoint <$> c :: ops)).
  assert (Hstart : py_index (p :: (endpoint <$> c :: ops)) (-1)
                   = Ok (final_point p (c :: ops))).
  { rewrite Hpts. by apply (py_index_from_end pts [] _ 0). }
  rewrite Hstart, bind_Ok.
  pose proof (reverse_loop_line_curve p (c :: ops) Hops []
                [("moveTo", [final_point p (c :: ops)])]) as Hloop.
  rewrite app_nil_r in Hloop. exact Hloop.
Qed.

Lemma contour_points_line_curve p ops :
  Forall line_or_curve ops ->
  contour_points (("moveTo", [p]) :: ops) = Ok (p :: (endpoint <$> ops)).
Proof.
  intros Hops. unfold contour_points.
  rewrite py_index_0, bind_Ok, strip_close_line_curve by done.
  by rewrite collect_points_line_curve.
Qed.

Lemma turned_line_or_curve c p : line_or_curve c -> line_or_curve (turned c p).
Proof.
  destruct c as [op operands]. unfold turned.
  intros [[Hop Hlen]|[Hop Hlen]]; simpl in Hop, Hlen; subst op; simpl.
  - by left.
  - destruct operands as [|a [|b [|e [|]]]]; try done. by right.
Qed.

Lemma endpoint_turned c p : line_or_curve c -> endpoint (turned c p) = p.
Proof.
  destruct c as [op operands]. unfold turned.
  intros [[Hop Hlen]|[Hop Hlen]]; simpl in Hop, Hlen; subst op; simpl.
  - done.
  - destruct operands as [|a [|b [|e [|]]]]; done.
Qed.

Lemma turned_turned c p : line_or_curve c -> turned (turned c p) (endpoint c) = c.
Proof.
  destruct c as [op operands]. unfold turned.
  intros [[Hop Hlen]|[Hop Hlen]]; simpl in Hop, Hlen; subst op; simpl.
  - destruct operands as [|a [|]]; done.
  - destruct operands as [|a [|b [|e [|]]]]; done.
Qed.

Lemma turned_back_line_curve p ops :
  Forall line_or_curve ops -> Forall line_or_curve (turned_back p ops).
Proof.
  intros Hops. revert p. induction Hops as [|c ops Hc _ IH]; intros p; simpl.
  - constructor.
  - apply Forall_app. split; [apply IH|].
    constructor; [by apply turned_line_or_curve | constructor].
Qed.

Lemma turned_back_involutive p ops :
  Forall line_or_curve ops ->
  final_point (final_point p ops) (turned_back p ops) = p
  /\ turned_back (final_point p ops) (turned_back p ops) = ops.
Proof.
  intros Hops. revert p. induction Hops as [|c ops Hc _ IH]; intros p; simpl.
  - done.
  - destruct (IH (endpoint c)) as [IHp IHo].
    rewrite final_point_app, turned_back_app, IHp, IHo. simpl.
    by rewrite endpoint_turned, turned_turned.
Qed.

Lemma turned_back_points p ops :
  Forall line_or_curve ops ->
  final_point p ops :: (endpoint <$> turned_back p ops)
  = reverse (p :: (endpoint <$> ops)).
Proof.
  intros Hops. revert p. induction Hops as [|c ops Hc _ IH]; intros p; csimpl.
  - done.
  - rewrite fmap_app, app_comm_cons, IH. csimpl.
    rewrite endpoint_turned by done.
    by rewrite (reverse_cons _ p).
Qed.
End LineCurve.

(** C5. On a contour made of a [moveTo] followed only by [lineTo] and
    [curveTo] commands, the Contour Reverser applied twice gives back the
    contour, hence its on-curve point sequence; one application reverses
    that sequence.  A single [curveTo (c1, c2, end)] after [p0] becomes
    [curveTo (c2, c1, p0)] after [end], and is restored by the second
    reversal. *)
Theorem reverse_twice (p0 : operand) (ops : list command)
    (Hops : Forall line_or_curve ops) :
  let contour := ("moveTo", [p0]) :: ops in
  exists reversed points,
    _reverse_contour_manually contour = Ok reversed
    /\ contour_points contour = Ok points
    /\ contour_points reversed = Ok (reverse points)
    /\ _reverse_contour_manually reversed = Ok contour
    /\ (forall c1 c2 e, ops = [("curveTo", [c1; c2; e])] ->
        reversed = [("moveTo", [e]); ("curveTo", [c2; c1; p0])]).
Proof.
  intros contour.
  exists (("moveTo", [final_point p0 ops]) :: turned_back p0 ops),
         (p0 :: (endpoint <$> ops)).
  pose proof (turned_back_line_curve p0 ops Hops) as Hback.
  destruct (turned_back_involutive p0 ops Hops) as [Hp Ho].
  split; [by apply reverse_line_curve|].
  split; [by apply contour_points_line_curve|].
  split; [by rewrite contour_points_line_curve, turned_back_points|].
  split.
  - rewrite reverse_line_curve by done. by rewrite Hp, Ho.
  - by intros c1 c2 e ->.
Qed.

Lemma reverse_twice_witness :
  let p0 := pt 0 0 in
  let c1 := pt 10 20 in
  let c2 := pt 30 20 in
  let e := pt 40 0 in
  _reverse_contour_manually [("moveTo", [p0]); ("curveTo", [c1; c2; e])]
  = Ok [("moveTo", [e]); ("curveTo", [c2; c1; p0])]
  /\ _reverse_contour_manually [("moveTo", [e]); ("curveTo", [c2; c1; p0])]
     = Ok [("moveTo", [p0]); ("curveTo", [c1; c2; e])].
Proof.
  intros p0 c1 c2 e.
  destruct (reverse_twice p0 [("curveTo", [c1; c2; e])])
    as (reversed & points & Hrev & _ & _ & Hback & Hcubic).
  - constructor; [right; split; reflexivity | constructor].
  - rewrite (Hcubic c1 c2 e eq_refl) in Hrev, Hback. split; [exact Hrev | exact Hback].
Defined.

(** ** The Contour Reverser and a [qCurveTo] that ends in [None] *)

Lemma last_not_none_implicit (cs : list operand) (c : point) :
  last_not_none (reverse (cs ++ [Some c; None])) = Some c.
Proof.
  replace (cs ++ [Some c; None]) with ((cs ++ [Some c]) ++ [None])
    by (by rewrite <-app_assoc).
  by rewrite !reverse_snoc.
Qed.

(** The sibling path: the emitting loop resolves the same [qCurveTo] to the
    start of the contour. *)
Lemma emit_qcurve_implicit_close (ascent : Z) (s : point) (l : option point)
    (q : bool) (cs : list operand) :
  let cmd := ("qCurveTo", cs ++ [None]) in
  emit_step ascent (Tracking (Some s) l q) cmd
  = Ok (Tracking (Some s) (Some s) true, [pen_call ascent cmd]).
Proof. simpl. by rewrite last_snoc. Qed.

(** C3. The point the Contour Reverser records for a [qCurveTo] whose last
    operand is [None] is the last operand that is not [None], a control
    point, and not the start of the contour: on
    [moveTo (0,0); qCurveTo ((10,10), (20,0), None)] the point sequence is
    [(0,0); (20,0)] and the reversed contour starts with [moveTo (20,0)]. *)
Theorem reverse_implicit_qcurve_point :
  (forall (cs : list operand) (c : point) (points : list operand),
     collect_points [("qCurveTo", cs ++ [Some c; None])] points
     = Ok (points ++ [Some c]))
  /\ let contour := [("moveTo", [pt 0 0]); ("qCurveTo", [pt 10 10; pt 20 0; None])] in
     contour_points contour = Ok [pt 0 0; pt 20 0]
     /\ _reverse_contour_manually contour
        = Ok [("moveTo", [pt 20 0]); ("qCurveTo", [pt 20 0; pt 10 10; pt 0 0])].
Proof.
  split.
  - intros cs c points. simpl. by rewrite last_not_none_implicit.
  - split; reflexivity.
Qed.

(** ** The Contour Reverser and operators it does not know *)

Lemma raises_bind {A B} (m : res A) (f : A -> res B) :
  (forall a, m = Ok a -> raises (f a)) -> raises (m ≫= f).
Proof.
  intros Hf. destruct m as [a|e]; simpl.
  - by apply Hf.
  - by exists e.
Qed.

(** An operation adds at most one point, and none when its operator is not
    recognised. *)
Lemma collect_points_length (operations : list command) :
  forall points points',
    collect_points operations points = Ok points' ->
    length points' <= length points + length operations
    /\ (Exists (fun c => unrecognized c.1) operations ->
        length points' < length points + length operations).
Proof.
  induction operations as [|[op operands] rest IH]; intros points points' H; simpl in H.
  - inversion H; subst. split; [lia|]. by inversion 1.
  - repeat case_bool_decide.
    + destruct (py_index operands 0) as [p|]; [|done]. simpl in H.
      apply IH in H as [Hle Hlt]. rewrite length_app in Hle, Hlt. simpl in *.
      split; [lia|]. inversion 1 as [? ? Hu|? ? Hu]; subst.
      * by destruct Hu as (Hl & _).
      * apply Hlt in Hu. lia.
    + destruct (py_index operands (-1)) as [p|]; [|done]. simpl in H.
      apply IH in H as [Hle Hlt]. rewrite length_app in Hle, Hlt. simpl in *.
      split; [lia|]. inversion 1 as [? ? Hu|? ? Hu]; subst.
      * by destruct Hu as (_ & Hc & _).
      * apply Hlt in Hu. lia.
    + destruct (last_not_none (reverse operands)).
      * apply IH in H as [Hle Hlt]. rewrite length_app in Hle, Hlt. simpl in *.
        split; [lia|]. inversion 1 as [? ? Hu|? ? Hu]; subst.
        -- by destruct Hu as (_ & _ & Hq).
        -- apply Hlt in Hu. lia.
      * apply IH in H as [Hle Hlt]. simpl. split; [lia|]. intros _. lia.
    + apply IH in H as [Hle Hlt]. simpl. split; [lia|]. intros _. lia.
Qed.

(** With fewer points than operations still to visit, [points[-(i+2)]]
    runs off the list before the loop ends. *)
Lemma reverse_loop_raises (reversed_operations : list command) :
  forall (i : Z) points result,
    reversed_operations <> [] ->
    (0 <= i)%Z ->
    (Z.of_nat (length points) < i + 1 + Z.of_nat (length reversed_operations))%Z ->
    raises (reverse_loop reversed_operations i points result).
Proof.
  induction reversed_operations as [|[op operands] rest IH];
    intros i points result Hne Hi Hlen; [done|].
  simpl. apply raises_bind. intros prev Hprev.
  apply py_index_length in Hprev; [|lia].
  destruct rest as [|c rest]; [simpl in Hlen; lia|].
  assert (Hrest : forall r, raises (reverse_loop (c :: rest) (i + 1)%Z points r)).
  { intros r. apply IH; [done | lia | simpl length in *; lia]. }
  repeat case_bool_decide; try apply Hrest.
  destruct operands as [|a [|b [|e [|]]]]; try apply Hrest; by exists ValueError.
Qed.

(** Any command with an unrecognised operator among the operations makes
    the Reverser raise. *)
Lemma reverse_unrecognized_raises (operands0 : list operand) (rest : list command) :
  Exists (fun c => unrecognized c.1) (strip_close rest) ->
  raises (_reverse_contour_manually (("moveTo", operands0) :: rest)).
Proof.
  intros Hex. unfold _reverse_contour_manually.
  destruct rest as [|c0 rest0]; [by inversion Hex|].
  change (length (("moveTo", operands0) :: c0 :: rest0) <? 2) with false. cbv iota.
  change (negb (is_moveTo "moveTo")) with false. cbv iota.
  apply raises_bind. intros move_to_point _.
  destruct (strip_close (c0 :: rest0)) as [|c operations] eqn:Hops; [by inversion Hex|].
  apply raises_bind. intros points Hpoints.
  apply collect_points_length in Hpoints as [_ Hlt]. specialize (Hlt Hex).
  apply raises_bind. intros start _.
  apply reverse_loop_raises.
  - intros Hnil. apply (f_equal length) in Hnil. rewrite length_reverse in Hnil. done.
  - lia.
  - rewrite length_reverse. simpl length in *. lia.
Qed.

Lemma reverse_loop_kinds (reversed_operations : list command) :
  forall (i : Z) points result out,
    reverse_loop reversed_operations i points result = Ok out ->
    Forall reversed_kind result ->
    Forall reversed_kind out.
Proof.
  induction reversed_operations as [|[op operands] rest IH];
    intros i points result out H Hres; simpl in H.
  - by inversion H; subst.
  - destruct (py_index points (- (i + 2))) as [prev|]; [|done]. simpl in H.
    assert (Hadd : forall c, reversed_kind c -> Forall reversed_kind (result ++ [c])).
    { intros c Hc. apply Forall_app. split; [done|]. by constructor. }
    repeat case_bool_decide.
    + eapply IH; [exact H|]. apply Hadd. right; by left.
    + destruct operands as [|a [|b [|e [|]]]]; try done.
      eapply IH; [exact H|]. apply Hadd. right; right; by left.
    + eapply IH; [exact H|]. apply Hadd. right; right; by right.
    + eapply IH; [exact H | done].
Qed.

Lemma reverse_loop_length (reversed_operations : list command) :
  forall (i : Z) points result out,
    Forall (fun c => ~ unrecognized c.1) reversed_operations ->
    reverse_loop reversed_operations i points result = Ok out ->
    length out = length result + length reversed_operations.
Proof.
  induction reversed_operations as [|[op operands] rest IH];
    intros i points result out Hknown H; simpl in H.
  - inversion H; subst. simpl. lia.
  - inversion Hknown as [|? ? Hop Hrest]; subst. simpl in Hop.
    destruct (py_index points (- (i + 2))) as [prev|]; [|done]. simpl in H.
    repeat case_bool_decide.
    + apply IH in H; [|done]. rewrite length_app in H. simpl in *. lia.
    + destruct operands as [|a [|b [|e [|]]]]; try done.
      apply IH in H; [|done]. rewrite length_app in H. simpl in *. lia.
    + apply IH in H; [|done]. rewrite length_app in H. simpl in *. lia.
    + destruct Hop. done.
Qed.

(** When the Reverser returns a reversed contour, every command in it is a
    [moveTo], [lineTo], [curveTo] or [qCurveTo], and there is one for the
    [moveTo] and one for each operation: none was dropped. *)
Lemma reverse_output (operands0 : list operand) (rest : list command)
    (out : list command) :
  strip_close rest <> [] ->
  _reverse_contour_manually (("moveTo", operands0) :: rest) = Ok out ->
  Forall reversed_kind out /\ length out = S (length (strip_close rest)).
Proof.
  intros Hne Hout.
  destruct (Forall_Exists_dec (fun c : command => ~ unrecognized c.1)
              (fun c : command => unrecognized c.1)
              (fun c => match decide (unrecognized c.1) with
                        | left u => right u
                        | right n => left n
                        end)
              (strip_close rest)) as [Hknown|Hex].
  2: { apply (reverse_unrecognized_raises operands0) in Hex as [e He].
       rewrite He in Hout. done. }
  revert Hout. unfold _reverse_contour_manually.
  destruct rest as [|c0 rest0]; [done|].
  change (length (("moveTo", operands0) :: c0 :: rest0) <? 2) with false. cbv iota.
  change (negb (is_moveTo "moveTo")) with false. cbv iota.
  destruct (py_index operands0 0) as [move_to_point|]; [|done]. simpl mbind.
  destruct (strip_close (c0 :: rest0)) as [|c operations] eqn:Hops; [done|].
  destruct (collect_points (c :: operations) [move_to_point]) as [points|]; [|done].
  simpl mbind.
  destruct (py_index points (-1)) as [start|]; [|done]. simpl mbind.
  intros Hloop. split.
  - eapply reverse_loop_kinds; [exact Hloop|]. constructor; [by left | constructor].
  - apply reverse_loop_length in Hloop.
    + rewrite length_reverse in Hloop. simpl in *. lia.
    + by apply Forall_reverse.
Qed.

(** C10. On [moveTo (0,0); arcTo (5,5); lineTo (10,0)], a contour that
    begins with [moveTo] and holds a drawing command of an unrecognised
    kind, the Contour Reverser raises [IndexError]: the unknown command adds
    no point, and the index of the previous point leaves the list. *)
Theorem reverse_unrecognized_index_error :
  _reverse_contour_manually
    [("moveTo", [pt 0 0]); ("arcTo", [pt 5 5]); ("lineTo", [pt 10 0])]
  = Raise IndexError.
Proof. reflexivity. Qed.

(** ** The Path Emitter: close-path detection *)

Arguments emit_step : simpl never.

Lemma emit_loop_app (ascent : Z) (value1 value2 : list command) :
  forall st,
    emit_loop ascent st (value1 ++ value2)
    = ('(st1, out1) ← emit_loop ascent st value1;
       '(st2, out2) ← emit_loop ascent st1 value2;
       Ok (st2, out1 ++ out2)).
Proof.
  induction value1 as [|cmd value1 IH]; intros st; simpl.
  - by destruct (emit_loop ascent st value2) as [[st2 out2]|e].
  - destruct (emit_step ascent st cmd) as [[st1 out1]|e]; simpl; [|done].
    rewrite IH.
    destruct (emit_loop ascent st1 value1) as [[st1' out1']|e]; simpl; [|done].
    destruct (emit_loop ascent st1' value2) as [[st2 out2]|e]; simpl; [|done].
    by rewrite app_assoc.
Qed.

Lemma emit_loop_snoc (ascent : Z) (value : list command) (cmd : command)
    (st st' : tracking) (out : list command) :
  emit_loop ascent st (value ++ [cmd]) = Ok (st', out) ->
  exists st0 out0 out1,
    emit_loop ascent st value = Ok (st0, out0)
    /\ emit_step ascent st0 cmd = Ok (st', out1)
    /\ out = out0 ++ out1.
Proof.
  rewrite emit_loop_app. simpl.
  destruct (emit_loop ascent st value) as [[st0 out0]|e] eqn:Hvalue; simpl; [|done].
  destruct (emit_step ascent st0 cmd) as [[st1 out1]|e] eqn:Hstep; simpl; [|done].
  intros H. inversion H; subst. exists st0, out0, out1.
  by rewrite app_nil_r.
Qed.

Lemma absent_final_other (op : string) (operands : list operand) :
  op <> "qCurveTo" -> absent_final (op, operands) = false.
Proof. intros H. unfold absent_final. simpl. by rewrite bool_decide_eq_false_2. Qed.

(** After any command, the guard of [closePath] is [close_rule]. *)
Lemma close_guard_after_step (ascent : Z) (st0 st : tracking) (prev : command)
    (out : list command) :
  emit_step ascent st0 prev = Ok (st, out) ->
  close_guard st = close_rule st prev.
Proof.
  destruct prev as [op operands]. unfold emit_step.
  assert (Hplain : forall l,
    op <> "qCurveTo" ->
    close_guard (Tracking (contour_start st0) l false)
    = close_rule (Tracking (contour_start st0) l false) (op, operands)).
  { intros l Hop. unfold close_guard, close_rule, within_tolerance. simpl.
    rewrite absent_final_other by done.
    destruct (contour_start st0), l; simpl; by rewrite ?orb_false_r. }
  case_bool_decide as Hmove.
  { destruct (py_index operands 0) as [p|]; [|done]. simpl.
    intros H. inversion H; subst.
    unfold close_guard, close_rule, within_tolerance. simpl.
    destruct p; simpl; by rewrite ?orb_false_r. }
  destruct (bool_decide (op = "lineTo") || bool_decide (op = "curveTo")) eqn:Hlc.
  { intros H. inversion H; subst. apply Hplain.
    intros ->. by rewrite !bool_decide_eq_false_2 in Hlc. }
  clear Hlc. destruct (decide (op = "qCurveTo")) as [Hq|Hq];
    [rewrite (bool_decide_eq_true_2 _ Hq) | rewrite (bool_decide_eq_false_2 _ Hq)].
  { subst op.
    unfold close_guard, close_rule, within_tolerance, absent_final. simpl.
    destruct (last operands) as [[q|]|] eqn:Hlast;
      destruct (contour_start st0) as [s|] eqn:Hs;
      intros H; inversion H; subst; simpl; rewrite ?Hs;
      try (by destruct (update_last _ _); rewrite ?orb_false_r);
      by rewrite orb_true_r. }
  case_bool_decide as Hc.
  { intros H. inversion H; subst. reflexivity. }
  case_bool_decide as He.
  { intros H. inversion H; subst. reflexivity. }
  intros H. inversion H; subst. by apply Hplain.
Qed.

(** The close rule in every stream.  After [value ++ [prev]], a [closePath]
    is forwarded to the pen exactly when the tracked current point is within
    [0.5] of the tracked [moveTo] point, or a [moveTo] point is tracked and
    [prev] is a [qCurveTo] whose final operand is [None]; otherwise nothing
    is forwarded.  A contour from [(0,0)] to [(100,100)] gets no close; one
    that ends at [(1/4,-1/4)] gets it. *)
Theorem close_path_forwarded (ascent : Z) (value : list command) (prev : command)
    (st : tracking) (out : list command)
    (Hrun : emit_loop ascent no_contour (value ++ [prev]) = Ok (st, out)) :
  (forall operands,
     emit_loop ascent no_contour (value ++ [prev; ("closePath", operands)])
     = Ok (no_contour,
           out ++ if close_rule st prev then [("closePath", [])] else []))
  /\ emit_loop ascent no_contour
       [("moveTo", [pt 0 0]); ("lineTo", [pt 100 100]); ("closePath", [])]
     = Ok (no_contour,
           pen_call ascent <$> [("moveTo", [pt 0 0]); ("lineTo", [pt 100 100])])
  /\ emit_loop ascent no_contour
       [("moveTo", [pt 0 0]); ("lineTo", [Some (1 # 4, - (1 # 4))%Q]); ("closePath", [])]
     = Ok (no_contour,
           (pen_call ascent <$>
              [("moveTo", [pt 0 0]); ("lineTo", [Some (1 # 4, - (1 # 4))%Q])])
           ++ [("closePath", [])]).
Proof.
  split; [|split; reflexivity].
  intros operands.
  replace (value ++ [prev; ("closePath", operands)])
    with ((value ++ [prev]) ++ [("closePath", operands)])
    by (by rewrite <-app_assoc).
  rewrite emit_loop_app, Hrun. simpl.
  apply emit_loop_snoc in Hrun as (st0 & out0 & out1 & _ & Hstep & _).
  rewrite (close_guard_after_step _ _ _ _ _ Hstep).
  by rewrite app_nil_r.
Qed.

Lemma close_path_forwarded_witness :
  emit_loop 0 no_contour
    [("moveTo", [pt 0 0]); ("lineTo", [pt 3 4]); ("lineTo", [pt 0 0]); ("closePath", [])]
  = Ok (no_contour,
        [("moveTo", [pt 0 0]); ("lineTo", [pt 3 (-4)]); ("lineTo", [pt 0 0]);
         ("closePath", [])]).
Proof.
  exact (proj1 (close_path_forwarded 0
    [("moveTo", [pt 0 0]); ("lineTo", [pt 3 4])] ("lineTo", [pt 0 0])
    (Tracking (Some (0, 0)%Q) (Some (0, 0)%Q) false)
    [("moveTo", [pt 0 0]); ("lineTo", [pt 3 (-4)]); ("lineTo", [pt 0 0])]
    eq_refl) []).
Defined.

(** Outside the data model, in a stream that has no [moveTo]: after a
    [qCurveTo] whose final operand is [None] the worded rule asks for a
    close, and the [closePath] is dropped. *)
Lemma close_rule_claimed_fails :
  let prev := ("qCurveTo", [pt 10 10; pt 20 0; None]) in
  let st := Tracking None (Some (inject_Z 20, inject_Z 0)) false in
  emit_loop 0 no_contour [prev] = Ok (st, [pen_call 0 prev])
  /\ close_rule_claimed st prev = true
  /\ emit_loop 0 no_contour [prev; ("closePath", [])]
     = Ok (no_contour, [pen_call 0 prev]).
Proof. repeat split. Qed.

Lemma close_rule_in_contour (st : tracking) (prev : command) :
  (absent_final prev = true -> is_Some (contour_start st)) ->
  close_rule st prev = close_rule_claimed st prev.
Proof.
  unfold close_rule, close_rule_claimed. intros Hcontour.
  destruct (contour_start st) as [s|]; [done|].
  destruct (absent_final prev); [|done].
  by destruct (Hcontour eq_refl).
Qed.

(** C4. In a stream of the data model, where a [qCurveTo] whose final
    operand is absent occurs only in a contour opened by a [moveTo], the
    Path Emitter forwards a [closePath] if and only if the tracked current
    point is within [0.5] of the contour's [moveTo] point or the command
    just before was a [qCurveTo] whose final operand was absent; in every
    other case the [closePath] is dropped.  A contour from [(0,0)] to
    [(100,100)] gets no close; one that ends at [(1/4,-1/4)] gets it. *)
Theorem close_path_rule (ascent : Z) (value : list command) (prev : command)
    (st : tracking) (out : list command)
    (Hrun : emit_loop ascent no_contour (value ++ [prev]) = Ok (st, out))
    (Hcontour : absent_final prev = true -> is_Some (contour_start st)) :
  (forall operands,
     emit_loop ascent no_contour (value ++ [prev; ("closePath", operands)])
     = Ok (no_contour,
           out ++ if within_tolerance st || absent_final prev
                  then [("closePath", [])] else []))
  /\ emit_loop ascent no_contour
       [("moveTo", [pt 0 0]); ("lineTo", [pt 100 100]); ("closePath", [])]
     = Ok (no_contour,
           pen_call ascent <$> [("moveTo", [pt 0 0]); ("lineTo", [pt 100 100])])
  /\ emit_loop ascent no_contour
       [("moveTo", [pt 0 0]); ("lineTo", [Some (1 # 4, - (1 # 4))%Q]); ("closePath", [])]
     = Ok (no_contour,
           (pen_call ascent <$>
              [("moveTo", [pt 0 0]); ("lineTo", [Some (1 # 4, - (1 # 4))%Q])])
           ++ [("closePath", [])]).
Proof.
  split; [|split; reflexivity].
  intros operands.
  replace (value ++ [prev; ("closePath", operands)])
    with ((value ++ [prev]) ++ [("closePath", operands)])
    by (by rewrite <-app_assoc).
  rewrite emit_loop_app, Hrun. simpl.
  apply emit_loop_snoc in Hrun as (st0 & out0 & out1 & _ & Hstep & _).
  fold (close_rule_claimed st prev).
  rewrite <-(close_rule_in_contour st prev Hcontour).
  rewrite <-(close_guard_after_step _ _ _ _ _ Hstep).
  unfold emit_step. simpl. by rewrite app_nil_r.
Qed.

Lemma close_path_rule_witness :
  emit_loop 0 no_contour
    [("moveTo", [pt 0 0]); ("qCurveTo", [pt 4 4; pt 9 0; None]); ("closePath", [])]
  = Ok (no_contour,
        [("moveTo", [pt 0 0]); ("qCurveTo", [pt 4 (-4); pt 9 0; None]);
         ("closePath", [])]).
Proof.
  exact (proj1 (close_path_rule 0
    [("moveTo", [pt 0 0])] ("qCurveTo", [pt 4 4; pt 9 0; None])
    (Tracking (pt 0 0) (pt 0 0) true)
    [("moveTo", [pt 0 0]); ("qCurveTo", [pt 4 (-4); pt 9 0; None])]
    eq_refl (fun _ => ex_intro _ (inject_Z 0, inject_Z 0) eq_refl)) []).
Defined.

(** ** The Path Emitter: coordinate transform *)

(** The matrix handed to [TransformPen] sends [(x, y)] to
    [(x, ascent - y)]; with [ascent = 750], [(200, 300)] goes to
    [(200, 450)].  In one step, every command other than
    [closePath]/[endPath] is forwarded with each of its points sent through
    that map; those two forward no point. *)
Theorem coordinate_flip :
  (forall (ascent : Z) (x y : Q),
     let p := transformPoint (flip_matrix ascent) (x, y) in
     (p.1 == x)%Q /\ (p.2 == inject_Z ascent - y)%Q)
  /\ transformPoint (flip_matrix 750) (inject_Z 200, inject_Z 300)
     = (inject_Z 200, inject_Z 450)
  /\ (forall (ascent : Z) (st st' : tracking) (cmd : command) (calls : list command),
        emit_step ascent st cmd = Ok (st', calls) ->
        if is_close cmd.1
        then calls = [] \/ calls = [("closePath", [])]
        else calls = [(cmd.1, (fun o : operand =>
                         transformPoint (flip_matrix ascent) <$> o) <$> cmd.2)]).
Proof.
  split; [|split].
  - intros ascent x y. simpl. split; ring.
  - reflexivity.
  - intros ascent st st' [op operands] calls. unfold emit_step, is_close. simpl.
    destruct (decide (op = "moveTo")) as [->|Hm].
    { simpl. destruct (py_index operands 0); [|done]. simpl.
      intros H. by inversion H. }
    rewrite (bool_decide_eq_false_2 _ Hm).
    destruct (decide (op = "lineTo")) as [->|Hl].
    { simpl. intros H. by inversion H. }
    rewrite (bool_decide_eq_false_2 _ Hl).
    destruct (decide (op = "curveTo")) as [->|Hc].
    { simpl. intros H. by inversion H. }
    rewrite (bool_decide_eq_false_2 _ Hc).
    destruct (decide (op = "qCurveTo")) as [->|Hq].
    { simpl. destruct (last operands) as [[q|]|]; destruct (contour_start st);
        intros H; by inversion H. }
    rewrite (bool_decide_eq_false_2 _ Hq).
    destruct (decide (op = "closePath")) as [->|Hcl].
    { simpl. intros H. inversion H. destruct (close_guard st); auto. }
    rewrite (bool_decide_eq_false_2 _ Hcl).
    destruct (decide (op = "endPath")) as [->|He].
    { simpl. intros H. inversion H. auto. }
    rewrite (bool_decide_eq_false_2 _ He). simpl.
    intros H. by inversion H.
Qed.

Lemma coordinate_flip_witness :
  emit_step 750 no_contour ("moveTo", [pt 200 300])
  = Ok (Tracking (pt 200 300) (pt 200 300) false, [("moveTo", [pt 200 450])])
  /\ [("moveTo", [pt 200 450])]
     = [("moveTo", (fun o : operand => transformPoint (flip_matrix 750) <$> o)
                   <$> [pt 200 300])].
Proof.
  split; [reflexivity|].
  exact (proj2 (proj2 coordinate_flip) 750%Z no_contour
           (Tracking (pt 200 300) (pt 200 300) false)
           ("moveTo", [pt 200 300]) [("moveTo", [pt 200 450])] eq_refl).
Defined.

(** ** End to end *)

Lemma retrace_value :
  _glyph_to_svg_commands retrace_outline 500
  = Ok [("moveTo", [pt 100 450]); ("lineTo", [pt 50 500]); ("lineTo", [pt 0 500])]
  /\ path_points [("moveTo", [pt 100 450]); ("lineTo", [pt 50 500]);
                  ("lineTo", [pt 0 500])]
     = [pt 100 450; pt 50 500; pt 0 500].
Proof. split; reflexivity. Qed.

(** C1, as the code has it.  With [ascent = 500] the pipeline turns the
    outline into the open path [(100,450)], [(50,500)], [(0,500)]: four
    drawing commands, of which the first two are kept, reversed and flipped;
    no close is forwarded. *)
Theorem retrace_outline_path :
  let calls := [("moveTo", [pt 100 450]); ("lineTo", [pt 50 500]);
                ("lineTo", [pt 0 500])] in
  contours_of retrace_outline = [retrace_outline]
  /\ _split_contour_at_midpoint retrace_outline
     = [("moveTo", [pt 0 0]); ("lineTo", [pt 50 0]); ("lineTo", [pt 100 50])]
  /\ process_contour retrace_outline
     = Ok [("moveTo", [pt 100 50]); ("lineTo", [pt 50 0]); ("lineTo", [pt 0 0])]
  /\ _glyph_to_svg_commands retrace_outline 500 = Ok calls
  /\ path_points calls = [pt 100 450; pt 50 500; pt 0 500]
  /\ no_close calls.
Proof.
  repeat split; try reflexivity.
  repeat constructor; discriminate.
Qed.

(** C1, as worded, fails: the output is not a two-point path from
    [(0,500)] to [(50,500)]. *)
Lemma retrace_outline_not_two_points :
  ~ exists calls,
      _glyph_to_svg_commands retrace_outline 500 = Ok calls
      /\ path_points calls = [pt 0 500; pt 50 500].
Proof.
  intros (calls & Hrun & Hpoints).
  destruct retrace_value as [Hcalls Hpts].
  rewrite Hcalls in Hrun. inversion Hrun; subst calls.
  rewrite Hpts in Hpoints. discriminate.
Qed.

(** ** Vertical metrics *)

Lemma fallback_metrics (f : font) :
  hhea f = None -> os2 f = None ->
  get_vertical_metrics f
  = (unitsPerEm f, unitsPerEm f, (- unitsPerEm f) `div` 4)%Z.
Proof. intros Hh Ho. unfold get_vertical_metrics. by rewrite Hh, Ho. Qed.

Lemma descent_exact_iff (units_per_em descent : Z) :
  (inject_Z descent == - inject_Z units_per_em / 4)%Q
  <-> (4 * descent = - units_per_em)%Z.
Proof.
  unfold Qeq, Qdiv, Qmult, Qinv, Qopp, inject_Z. simpl. lia.
Qed.

(** C9, as the code has it.  With neither [hhea] nor [OS/2] in the font,
    the lookup returns [ascent = units_per_em] and
    [descent = (-units_per_em) // 4], the floor of [-units_per_em / 4]; the
    descent is [-units_per_em / 4] itself exactly when [units_per_em] is a
    multiple of 4. *)
Theorem fallback_metrics_floor (f : font)
    (Hpos : (0 < unitsPerEm f)%Z)
    (Hhhea : hhea f = None)
    (Hos2 : os2 f = None) :
  let '(units_per_em, ascent, descent) := get_vertical_metrics f in
  units_per_em = unitsPerEm f
  /\ ascent = units_per_em
  /\ descent = ((- units_per_em) `div` 4)%Z
  /\ (4 * descent <= - units_per_em < 4 * descent + 4)%Z
  /\ ((inject_Z descent == - inject_Z units_per_em / 4)%Q
      <-> (units_per_em `mod` 4 = 0)%Z).
Proof.
  rewrite fallback_metrics by done.
  set (u := unitsPerEm f) in *.
  pose proof (Z.div_mod (- u) 4 ltac:(lia)) as Hdm.
  pose proof (Z.mod_pos_bound (- u) 4 ltac:(lia)) as Hbound.
  repeat split; try lia.
  - intros Hex. apply descent_exact_iff in Hex.
    apply Z.mod_divide; [lia|]. exists (- ((- u) `div` 4))%Z. lia.
  - intros Hmod. apply descent_exact_iff.
    apply Z.mod_divide in Hmod as [k Hk]; [|lia].
    assert (Hm : ((- u) `mod` 4 = 0)%Z).
    { apply Z.mod_divide; [lia|]. exists (- k)%Z. lia. }
    lia.
Qed.

Lemma fallback_metrics_floor_witness :
  get_vertical_metrics (Font 1000 None None) = (1000, 1000, -250)%Z
  /\ (inject_Z (-250) == - inject_Z 1000 / 4)%Q.
Proof.
  pose proof (fallback_metrics_floor (Font 1000 None None)
                ltac:(simpl; lia) eq_refl eq_refl) as H.
  rewrite fallback_metrics in H by done. cbn [unitsPerEm] in H.
  destruct H as (_ & _ & _ & _ & Hexact).
  split; [reflexivity|]. exact (proj2 Hexact eq_refl).
Defined.

(** C9, as worded, fails: for [units_per_em = 1001] the fallback descent is
    [-251], which is neither [-1001/4] nor [-(1001 // 4) = -250]. *)
Lemma fallback_descent_not_exact :
  get_vertical_metrics (Font 1001 None None) = (1001, 1001, -251)%Z
  /\ ~ (inject_Z (-251) == - inject_Z 1001 / 4)%Q
  /\ (-251 <> - (1001 `div` 4))%Z.
Proof.
  split; [reflexivity|]. split.
  - intros H. apply descent_exact_iff in H. lia.
  - discriminate.
Qed.

(** * Further properties *)

(** ** The Contour Segmenter *)

Lemma segment_starts (value : list command) :
  forall current,
    starts_with_moveTo current ->
    Forall starts_with_moveTo (segment value [] current).
Proof.
  induction value as [|[operator operands] rest IH]; intros current Hcur; simpl.
  - destruct Hcur as (mv & tl & -> & Hmv). constructor; [|constructor].
    by exists mv, tl.
  - case_bool_decide as Hop.
    + destruct current as [|c current].
      * apply IH. exists (operator, operands), []. split; [done|].
        simpl. by apply bool_decide_eq_true_2.
      * rewrite (segment_acc rest [_]). constructor; [done|].
        apply IH. exists (operator, operands), []. split; [done|].
        simpl. by apply bool_decide_eq_true_2.
    + apply IH. destruct Hcur as (mv & tl & -> & Hmv).
      by exists mv, (tl ++ [(operator, operands)]).
Qed.

Lemma segment_tail_starts (value : list command) :
  forall current, Forall starts_with_moveTo (tail (segment value [] current)).
Proof.
  assert (Hone : forall (operator : string) operands,
            operator = "moveTo" -> starts_with_moveTo [(operator, operands)]).
  { intros operator operands ->. by exists ("moveTo", operands), []. }
  induction value as [|[operator operands] rest IH]; intros current; simpl.
  - destruct current; simpl; constructor.
  - case_bool_decide as Hop.
    + destruct current as [|c current].
      * apply Forall_tail, segment_starts. by apply Hone.
      * rewrite (segment_acc rest [_]). simpl. apply segment_starts. by apply Hone.
    + apply IH.
Qed.

Lemma segment_shape (value : list command) :
  forall current,
    Forall not_moveTo (tail current) ->
    Forall (fun c => c <> [] /\ Forall not_moveTo (tail c)) (segment value [] current).
Proof.
  induction value as [|[operator operands] rest IH]; intros current Hcur; simpl.
  - destruct current; repeat constructor; done.
  - case_bool_decide as Hop.
    + destruct current as [|c current].
      * apply IH. constructor.
      * rewrite (segment_acc rest [_]). constructor; [done|].
        apply IH. constructor.
    + apply IH. destruct current as [|c current]; simpl; [constructor|].
      apply Forall_app. split; [done|]. constructor; [|constructor].
      unfold not_moveTo, is_moveTo. simpl. by apply bool_decide_eq_false_2.
Qed.

(** X1. Every contour cut by the Segmenter is non-empty and has no [moveTo]
    after its first command, and every contour but the first begins with a
    [moveTo]; the first does too when the stream begins with one. *)
Theorem segment_contours_shape (value : list command) :
  Forall (fun c => c <> [] /\ Forall not_moveTo (tail c)) (contours_of value)
  /\ Forall starts_with_moveTo (tail (contours_of value))
  /\ (starts_with_moveTo value -> Forall moveTo_headed (contours_of value)).
Proof.
  unfold contours_of.
  assert (Hshape := segment_shape value [] ltac:(constructor)).
  split; [done|]. split; [apply segment_tail_starts|].
  intros (mv & rest & -> & Hmv).
  destruct mv as [operator operands]. simpl in *.
  unfold is_moveTo in Hmv. rewrite Hmv in *.
  assert (Hstart := segment_starts rest [(operator, operands)]
            ltac:(by exists (operator, operands), [])).
  revert Hshape Hstart.
  generalize (segment rest [] [(operator, operands)]). intros cs Hshape Hstart.
  induction cs as [|c cs IH]; [constructor|].
  inversion Hshape as [|? ? [_ Htl] Hshape']; subst.
  inversion Hstart as [|? ? (mv & tl & -> & Hmv') Hstart']; subst.
  constructor; [|by apply IH]. by exists mv, tl.
Qed.

Lemma segment_skip (drawing : list command) :
  Forall not_moveTo drawing ->
  forall value contours current,
    segment (drawing ++ value) contours current
    = segment value contours (current ++ drawing).
Proof.
  induction 1 as [|[operator operands] drawing Hc _ IH]; intros value contours current.
  - by rewrite app_nil_r.
  - simpl. unfold not_moveTo, is_moveTo in Hc. simpl in Hc. rewrite Hc.
    rewrite IH. by rewrite <-app_assoc.
Qed.

Lemma segment_headed_concat (cs : list (list command)) :
  Forall moveTo_headed cs ->
  forall current,
    segment (concat cs) [] current
    = match current with [] => [] | _ :: _ => [current] end ++ cs.
Proof.
  induction 1 as [|c cs Hc _ IH]; intros current; simpl.
  - destruct current; done.
  - destruct Hc as ([operator operands] & rest & -> & Hmv & Hrest).
    simpl in Hmv. unfold is_moveTo in Hmv. simpl. rewrite Hmv.
    destruct current as [|c0 current].
    + rewrite segment_skip by done. by rewrite IH.
    + rewrite (segment_acc _ [_]), segment_skip by done.
      by rewrite IH.
Qed.

(** X2. Cutting the concatenation of contours that each begin with a
    [moveTo] and hold no other [moveTo] gives back exactly those contours. *)
Theorem segment_of_concat (cs : list (list command))
    (Hcs : Forall moveTo_headed cs) :
  contours_of (concat cs) = cs.
Proof. unfold contours_of. by rewrite segment_headed_concat. Qed.

Lemma segment_of_concat_witness :
  contours_of
    [("moveTo", [pt 0 0]); ("lineTo", [pt 5 0]); ("closePath", []);
     ("moveTo", [pt 9 9]); ("lineTo", [pt 1 1])]
  = [[("moveTo", [pt 0 0]); ("lineTo", [pt 5 0]); ("closePath", [])];
     [("moveTo", [pt 9 9]); ("lineTo", [pt 1 1])]].
Proof.
  apply (segment_of_concat
    [[("moveTo", [pt 0 0]); ("lineTo", [pt 5 0]); ("closePath", [])];
     [("moveTo", [pt 9 9]); ("lineTo", [pt 1 1])]]).
  repeat constructor.
  - eexists _, _. split; [reflexivity|]. split; [reflexivity|].
    repeat constructor.
  - eexists _, _. split; [reflexivity|]. split; [reflexivity|].
    repeat constructor.
Defined.

(** X3. [_glyph_to_svg_commands] is the composition of its stages: cut the
    stream into contours, split and reverse each contour in order (the first
    exception ends the run), concatenate, and replay through the emitting
    loop from the state with no contour. *)
Theorem glyph_pipeline_stages (value : list command) (ascent : Z) :
  _glyph_to_svg_commands value ascent
  = (contours ← mapM process_contour (contours_of value);
     '(_, calls) ← emit_loop ascent no_contour (concat contours);
     Ok calls).
Proof.
  unfold _glyph_to_svg_commands. rewrite segment_loop_segment.
  fold (contours_of value).
  by destruct (mapM process_contour (contours_of value)).
Qed.

(** ** The Midpoint Splitter on any command list *)

Lemma split_scan_last_moveTo (contour : list command) :
  forall move_to close_op drawing_ops,
    (split_scan contour move_to close_op drawing_ops).1.1
    = match last_moveTo contour with
      | Some m => Some m
      | None => move_to
      end.
Proof.
  unfold last_moveTo.
  induction contour as [|[op operands] rest IH]; intros mv cl ds; simpl; [done|].
  destruct (is_moveTo op) eqn:Hop; simpl.
  - rewrite IH, last_cons. by destruct (last _).
  - destruct (is_close op); by rewrite IH.
Qed.

(** The Splitter without its scan loop. *)
Lemma split_any (contour : list command) :
  _split_contour_at_midpoint contour
  = if length contour <? 3 then contour
    else match drawing_commands contour with
         | [] => contour
         | _ :: _ =>
             option_list (last_moveTo contour)
             ++ take (length (drawing_commands contour) / 2) (drawing_commands contour)
         end.
Proof.
  unfold _split_contour_at_midpoint.
  destruct (length contour <? 3); [done|].
  pose proof (split_scan_drawing contour None None []) as Hdraw.
  pose proof (split_scan_last_moveTo contour None None []) as Hmove.
  rewrite app_nil_l in Hdraw.
  destruct (split_scan contour None None []) as [[move_to close_op] drawing_ops].
  cbn [fst snd] in Hdraw, Hmove. subst drawing_ops move_to.
  destruct (drawing_commands contour); [done|].
  by destruct (last_moveTo contour).
Qed.

Lemma drawing_commands_drawing (contour : list command) :
  Forall (fun c => is_drawing c = true) (drawing_commands contour).
Proof.
  unfold drawing_commands. induction contour as [|c contour IH]; simpl; [constructor|].
  destruct (is_drawing c) eqn:Hc; [by constructor | done].
Qed.

Lemma last_moveTo_moveTo (contour : list command) (m : command) :
  last_moveTo contour = Some m -> is_moveTo m.1 = true.
Proof.
  unfold last_moveTo. intros Hlast.
  apply last_Some in Hlast as [front Hfront].
  assert (Hin : In m (List.filter (fun c : command => is_moveTo c.1) contour)).
  { rewrite Hfront. apply in_or_app. right. by left. }
  by apply List.filter_In in Hin as [_ Hm].
Qed.

Lemma kinds_length (contour : list command) :
  length (List.filter (fun c : command => is_moveTo c.1) contour)
  + length (drawing_commands contour) <= length contour.
Proof.
  unfold drawing_commands, is_drawing.
  induction contour as [|c contour IH]; simpl; [lia|].
  destruct (is_moveTo c.1); simpl; [lia|].
  destruct (is_close c.1); simpl; lia.
Qed.

Lemma last_moveTo_length (contour : list command) :
  length (option_list (last_moveTo contour))
  <= length (List.filter (fun c : command => is_moveTo c.1) contour).
Proof.
  unfold last_moveTo.
  destruct (List.filter (fun c : command => is_moveTo c.1) contour) as [|m ms];
    [done|].
  destruct (last (m :: ms)); simpl; lia.
Qed.

Lemma drawing_not_close (c : command) : is_drawing c = true -> not_close c.
Proof.
  unfold is_drawing, not_close. destruct (is_moveTo c.1); simpl; [done|].
  by destruct (is_close c.1).
Qed.

Lemma moveTo_not_close (c : command) : is_moveTo c.1 = true -> not_close c.
Proof.
  unfold not_close, is_moveTo, is_close. intros H.
  apply bool_decide_eq_true in H. by rewrite H.
Qed.

(** When the Splitter rewrites, nothing it keeps is a close. *)
Lemma split_rewritten_no_close (contour : list command) :
  3 <= length contour -> drawing_commands contour <> [] ->
  Forall not_close (_split_contour_at_midpoint contour)
  /\ length (_split_contour_at_midpoint contour) < length contour
  /\ drawing_commands (_split_contour_at_midpoint contour)
     = take (length (drawing_commands contour) / 2) (drawing_commands contour).
Proof.
  intros Hlen Hdraw. rewrite split_any.
  destruct (Nat.ltb_spec (length contour) 3) as [|_]; [lia|].
  pose proof (drawing_commands_drawing contour) as Hds.
  pose proof (kinds_length contour) as Hk.
  pose proof (last_moveTo_length contour) as Hm.
  pose proof (last_moveTo_moveTo contour) as Hlast.
  destruct (drawing_commands contour) as [|d ds] eqn:Hdc; [done|].
  set (half := take (length (d :: ds) / 2) (d :: ds)).
  assert (Hhalf : Forall (fun c => is_drawing c = true) half)
    by (by apply Forall_take).
  assert (Hhl : length half < length (d :: ds)).
  { subst half. rewrite length_take.
    pose proof (Nat.div_lt (length (d :: ds)) 2). simpl length in *. lia. }
  split; [|split].
  - apply Forall_app. split.
    + destruct (last_moveTo contour) as [m|]; [|constructor].
      constructor; [|constructor]. by apply moveTo_not_close, Hlast.
    + eapply Forall_impl; [exact Hhalf|]. apply drawing_not_close.
  - rewrite length_app. lia.
  - unfold drawing_commands at 1. rewrite List.filter_app.
    fold (drawing_commands half).
    rewrite (drawing_commands_all half Hhalf).
    destruct (last_moveTo contour) as [m|] eqn:Hm'; simpl; [|done].
    unfold is_drawing. by rewrite (Hlast m eq_refl).
Qed.

(** X4. For any command list, the Midpoint Splitter either returns it
    unchanged or returns a list with no [closePath]/[endPath]; the output is
    never longer than the input, and its drawing commands are a prefix of
    the input's. *)
Theorem split_output (contour : list command) :
  let out := _split_contour_at_midpoint contour in
  (out = contour \/ Forall not_close out)
  /\ length out <= length contour
  /\ drawing_commands out `prefix_of` drawing_commands contour.
Proof.
  intros out. subst out.
  destruct (Nat.ltb_spec (length contour) 3) as [Hshort|Hlong].
  { rewrite split_short by done. split; [by left|]. split; [lia|done]. }
  destruct (drawing_commands contour) as [|d ds] eqn:Hdc.
  { assert (Hsame : _split_contour_at_midpoint contour = contour).
    { rewrite split_any, Hdc. by destruct (length contour <? 3). }
    rewrite Hsame, Hdc. split; [by left|]. split; [lia|done]. }
  destruct (split_rewritten_no_close contour Hlong) as (Hnc & Hlt & Hd).
  { by rewrite Hdc. }
  split; [by right|]. split; [lia|].
  rewrite Hd, Hdc. apply prefix_take.
Qed.

(** X5. On a list of at least 3 commands with [n >= 1] drawing commands the
    Splitter keeps exactly the first [n / 2] of them and returns a strictly
    shorter list: applied again to a long enough result, it halves again. *)
Theorem split_halves (contour : list command)
    (Hlen : 3 <= length contour)
    (Hdraw : drawing_commands contour <> []) :
  let n := length (drawing_commands contour) in
  drawing_commands (_split_contour_at_midpoint contour)
  = take (n / 2) (drawing_commands contour)
  /\ length (drawing_commands (_split_contour_at_midpoint contour)) = n / 2
  /\ length (_split_contour_at_midpoint contour) < length contour.
Proof.
  intros n. destruct (split_rewritten_no_close contour Hlen Hdraw) as (_ & Hlt & Hd).
  split; [done|]. split; [|done].
  rewrite Hd, length_take. subst n.
  assert (length (drawing_commands contour) / 2 <= length (drawing_commands contour))
    by (apply Nat.Div0.div_le_upper_bound; lia).
  lia.
Qed.

Lemma split_halves_witness :
  let contour := [("lineTo", [pt 1 0]); ("lineTo", [pt 2 0]); ("lineTo", [pt 3 0]);
                  ("lineTo", [pt 4 0]); ("lineTo", [pt 5 0])] in
  drawing_commands (_split_contour_at_midpoint contour)
  = [("lineTo", [pt 1 0]); ("lineTo", [pt 2 0])].
Proof.
  intros contour.
  exact (proj1 (split_halves contour ltac:(simpl; lia) ltac:(discriminate))).
Defined.

(** ** [_remove_duplicate_segments] *)

Lemma remove_duplicate_loop_app (todo : list command) :
  forall result, remove_duplicate_loop todo result = result ++ todo.
Proof.
  induction todo as [|[operator operands] rest IH]; intros result; simpl.
  - by rewrite app_nil_r.
  - destruct (is_moveTo operator || is_close operator), rest;
      rewrite IH, <-app_assoc; done.
Qed.

(** X6. [_remove_duplicate_segments] returns every recording unchanged: each
    branch of its loop appends the command it looks at, so nothing is ever
    removed. *)
Theorem remove_duplicate_segments_id (recorded_value : list command) :
  _remove_duplicate_segments recorded_value = recorded_value.
Proof. unfold _remove_duplicate_segments. by rewrite remove_duplicate_loop_app. Qed.

(** ** [_get_last_point] *)

Lemma last_not_none_elem (l : list operand) (p : point) :
  last_not_none l = Some p -> Some p ∈ l.
Proof.
  induction l as [|[q|] l IH]; simpl; [done| |].
  - intros [= ->]. by left.
  - intros H. right. by apply IH.
Qed.

Lemma last_not_none_None (l : list operand) :
  last_not_none l = None <-> Forall (fun o => o = None) l.
Proof.
  induction l as [|[q|] l IH]; simpl.
  - split; [constructor | done].
  - split; [done|]. by inversion 1.
  - rewrite IH. split; [by constructor | by inversion 1].
Qed.

(** X7. [_get_last_point] returns [None] for a command without operands;
    a point it returns is one of the operands; for [qCurveTo] it returns
    [None] exactly when every operand is [None], and for any other operator
    it is the last operand. *)
Theorem get_last_point_spec (operator : string) (operands : list operand) :
  _get_last_point operator [] = None
  /\ (forall p, _get_last_point operator operands = Some p -> Some p ∈ operands)
  /\ (_get_last_point "qCurveTo" operands = None
      <-> Forall (fun o => o = None) operands)
  /\ (operator <> "qCurveTo" ->
      forall front o, _get_last_point operator (front ++ [o]) = o).
Proof.
  split; [done|]. split; [|split].
  - intros p. unfold _get_last_point.
    destruct operands as [|o operands]; [done|].
    case_bool_decide as Hq.
    + intros Hp. apply last_not_none_elem in Hp.
      rewrite elem_of_reverse in Hp. exact Hp.
    + destruct (last (o :: operands)) as [q|] eqn:Hlast; simpl; [|done].
      intros ->. apply last_Some in Hlast as [front ->].
      apply elem_of_app. right. by left.
  - unfold _get_last_point. destruct operands as [|o operands].
    + split; [constructor | done].
    + simpl bool_decide. cbv iota. rewrite last_not_none_None.
      by rewrite Forall_reverse.
  - intros Hop front o. unfold _get_last_point.
    destruct (front ++ [o]) as [|x l] eqn:Hfl; [by destruct front|].
    rewrite bool_decide_eq_false_2 by done.
    by rewrite <-Hfl, last_snoc.
Qed.

Lemma get_last_point_spec_witness :
  _get_last_point "curveTo" [pt 1 2; pt 3 4; pt 5 6] = pt 5 6.
Proof.
  exact (proj2 (proj2 (proj2 (get_last_point_spec "curveTo" [])))
           ltac:(discriminate) [pt 1 2; pt 3 4] (pt 5 6)).
Defined.

(** ** [_points_close] *)

Lemma close_coordinate (a b c d : Q) :
  (Qabs (a - b) == Qabs (c - d))%Q ->
  Qle_bool (Qabs (a - b)) tolerance = Qle_bool (Qabs (c - d)) tolerance.
Proof.
  intros Heq. apply Bool.eq_iff_eq_true. rewrite !Qle_bool_iff. by rewrite Heq.
Qed.

Lemma close_integer (a b : Z) :
  Qle_bool (Qabs (inject_Z a - inject_Z b)) tolerance = (a =? b)%Z.
Proof.
  apply Bool.eq_iff_eq_true. rewrite Qle_bool_iff, Z.eqb_eq.
  unfold Qle, Qabs, Qminus, Qplus, Qopp, inject_Z, tolerance.
  cbn [Qnum Qden]. lia.
Qed.

Lemma points_close_flip (ascent : Z) (p q : point) :
  _points_close (transformPoint (flip_matrix ascent) p)
                (transformPoint (flip_matrix ascent) q)
  = _points_close p q.
Proof.
  destruct p as [x1 y1], q as [x2 y2].
  unfold _points_close, transformPoint, flip_matrix. cbn [fst snd].
  f_equal; apply close_coordinate.
  - apply Qabs_wd. ring.
  - rewrite <-(Qabs_opp (y1 - y2)). apply Qabs_wd. ring.
Qed.

(** X8. On points with integer coordinates, where the script's arithmetic
    is exact, [_points_close] holds exactly when the two points are equal,
    and it gives the same answer on the two points and on their images
    under the emitter's flip. *)
Theorem points_close_integer (x1 y1 x2 y2 : Z) :
  let p := (inject_Z x1, inject_Z y1) in
  let q := (inject_Z x2, inject_Z y2) in
  _points_close p q = ((x1 =? x2)%Z && (y1 =? y2)%Z)
  /\ (_points_close p q = true <-> p = q)
  /\ forall ascent : Z,
       _points_close (transformPoint (flip_matrix ascent) p)
                     (transformPoint (flip_matrix ascent) q)
       = ((x1 =? x2)%Z && (y1 =? y2)%Z).
Proof.
  intros p q.
  assert (Hclose : _points_close p q = ((x1 =? x2)%Z && (y1 =? y2)%Z)).
  { unfold _points_close, p, q. cbn [fst snd]. by rewrite !close_integer. }
  split; [done|]. split.
  - rewrite Hclose, andb_true_iff, !Z.eqb_eq. subst p q. split.
    + by intros [-> ->].
    + intros Heq. inversion Heq. done.
  - intros ascent. by rewrite points_close_flip.
Qed.

(** ** The Contour Reverser on any command list *)

Lemma strip_close_length (operations : list command) :
  length (strip_close operations) <= length operations.
Proof.
  unfold strip_close. destruct (last operations) as [[op operands]|]; [|done].
  destruct (is_close op); [|done]. rewrite length_take. lia.
Qed.

Lemma strip_close_snoc (operations : list command) (cl : command) :
  is_close cl.1 = true -> strip_close (operations ++ [cl]) = operations.
Proof.
  intros Hcl. unfold strip_close. rewrite last_snoc. destruct cl as [op operands].
  simpl in Hcl. rewrite Hcl, length_app. simpl.
  replace (length operations + 1 - 1) with (length operations) by lia.
  by rewrite take_app_length.
Qed.

Lemma strip_close_keep (operations : list command) (c : command) :
  is_close c.1 = false -> strip_close (operations ++ [c]) = operations ++ [c].
Proof.
  intros Hc. unfold strip_close. rewrite last_snoc. destruct c as [op operands].
  simpl in Hc. by rewrite Hc.
Qed.

Lemma reverse_loop_prefix (reversed_operations : list command) :
  forall (i : Z) points result out,
    reverse_loop reversed_operations i points result = Ok out ->
    exists added, out = result ++ added.
Proof.
  induction reversed_operations as [|[op operands] rest IH];
    intros i points result out H; simpl in H.
  - inversion H; subst. exists []. by rewrite app_nil_r.
  - destruct (py_index points (- (i + 2))) as [prev|]; [|done]. simpl in H.
    repeat case_bool_decide.
    + apply IH in H as [added ->]. eexists. by rewrite <-app_assoc.
    + destruct operands as [|a [|b [|e [|]]]]; try done.
      apply IH in H as [added ->]. eexists. by rewrite <-app_assoc.
    + apply IH in H as [added ->]. eexists. by rewrite <-app_assoc.
    + by apply IH in H.
Qed.

Lemma reversed_kind_not_close (c : command) : reversed_kind c -> not_close c.
Proof.
  unfold not_close, is_close. by intros [-> | [-> | [-> | ->]]].
Qed.

(** The two ways the Reverser returns. *)
Lemma reverse_cases (contour out : list command) :
  _reverse_contour_manually contour = Ok out ->
  out = contour
  \/ (Forall reversed_kind out
      /\ 2 <= length out <= length contour
      /\ starts_with_moveTo out).
Proof.
  intros H. destruct contour as [|[op0 operands0] rest].
  { left. by inversion H. }
  destruct (decide (op0 = "moveTo")) as [->|Hne].
  2: { left. unfold _reverse_contour_manually in H.
       destruct (length _ <? 2); [by inversion H|].
       unfold is_moveTo in H. rewrite bool_decide_eq_false_2 in H by done.
       by inversion H. }
  destruct (strip_close rest) as [|c ops] eqn:Hs.
  { left. unfold _reverse_contour_manually in H.
    destruct (length _ <? 2); [by inversion H|].
    change (negb (is_moveTo "moveTo")) with false in H. cbv iota in H.
    destruct (py_index operands0 0); simpl in H; [|done].
    rewrite Hs in H. by inversion H. }
  right.
  assert (Hstart : starts_with_moveTo out).
  { unfold _reverse_contour_manually in H.
    destruct (length _ <? 2).
    { inversion H; subst. by exists ("moveTo", operands0), rest. }
    change (negb (is_moveTo "moveTo")) with false in H. cbv iota in H.
    destruct (py_index operands0 0); simpl in H; [|done].
    rewrite Hs in H.
    destruct (collect_points (c :: ops) [a]) as [points|]; simpl in H; [|done].
    destruct (py_index points (-1)) as [start|]; simpl in H; [|done].
    apply reverse_loop_prefix in H as [added ->].
    by exists ("moveTo", [start]), added. }
  apply reverse_output in H as [Hk Hl]; [|by rewrite Hs].
  pose proof (strip_close_length rest) as Hle.
  rewrite Hs in Hl, Hle. simpl in *. repeat split; try done; lia.
Qed.

(** X9. Whenever the Contour Reverser returns, the result is either the
    input itself or a rewritten contour that begins with a [moveTo], holds
    only [moveTo]/[lineTo]/[curveTo]/[qCurveTo] commands (so no
    [closePath]/[endPath]), has at least two commands and is no longer than
    the input. *)
Theorem reverse_result (contour out : list command)
    (Hout : _reverse_contour_manually contour = Ok out) :
  out = contour
  \/ (starts_with_moveTo out
      /\ Forall reversed_kind out
      /\ Forall not_close out
      /\ 2 <= length out <= length contour).
Proof.
  apply reverse_cases in Hout as [->|(Hk & Hl & Hs)]; [by left|]. right.
  repeat split; try done; try lia.
  eapply Forall_impl; [exact Hk|]. apply reversed_kind_not_close.
Qed.

Lemma reverse_result_witness :
  let out := [("moveTo", [pt 5 5]); ("lineTo", [pt 0 0])] in
  Forall not_close out /\ 2 <= length out <= 3.
Proof.
  intros out.
  destruct (reverse_result
              [("moveTo", [pt 0 0]); ("lineTo", [pt 5 5]); ("closePath", [])]
              out eq_refl) as [Habs|(_ & _ & Hnc & Hlen)].
  - discriminate Habs.
  - split; [exact Hnc | exact Hlen].
Defined.

(** X10. After a [moveTo] and at least one operation, the last of which is
    not a close, a trailing [closePath]/[endPath] changes nothing: the
    Reverser gives the same result, or raises the same exception, with and
    without it.  (A [moveTo] followed by the close alone is the degenerate
    contour, returned as it is.) *)
Theorem reverse_ignores_trailing_close (operands0 : list operand)
    (rest : list command) (c cl : command)
    (Hc : is_close c.1 = false)
    (Hcl : is_close cl.1 = true) :
  _reverse_contour_manually (("moveTo", operands0) :: (rest ++ [c]) ++ [cl])
  = _reverse_contour_manually (("moveTo", operands0) :: rest ++ [c]).
Proof.
  unfold _reverse_contour_manually.
  rewrite strip_close_snoc, strip_close_keep by done.
  simpl length. rewrite !length_app. simpl length.
  destruct (Nat.ltb_spec (S (length rest + 1 + 1)) 2) as [|_]; [lia|].
  destruct (Nat.ltb_spec (S (length rest + 1)) 2) as [|_]; [lia|].
  change (negb (is_moveTo "moveTo")) with false. cbv iota.
  destruct (py_index operands0 0) as [p|]; simpl; [|done].
  destruct (rest ++ [c]) eqn:Hrc; [by destruct rest|]. done.
Qed.

Lemma reverse_ignores_trailing_close_witness :
  _reverse_contour_manually
    [("moveTo", [pt 0 0]); ("lineTo", [pt 5 5]); ("closePath", [])]
  = _reverse_contour_manually [("moveTo", [pt 0 0]); ("lineTo", [pt 5 5])].
Proof.
  exact (reverse_ignores_trailing_close [pt 0 0] [] ("lineTo", [pt 5 5])
           ("closePath", []) eq_refl eq_refl).
Defined.

Lemma not_none_Some (pts : list point) : not_none (Some <$> pts) = Some <$> pts.
Proof.
  induction pts as [|q pts IH]; [done|].
  unfold not_none in *. rewrite fmap_cons, filter_cons_True by (by eexists).
  f_equal. exact IH.
Qed.

Lemma reverse_explicit_qcurve (p0 : operand) (front : list point) (e : point) :
  _reverse_contour_manually
    [("moveTo", [p0]); ("qCurveTo", Some <$> (front ++ [e]))]
  = Ok [("moveTo", [Some e]);
        ("qCurveTo", Some e :: (Some <$> reverse front) ++ [p0])].
Proof.
  assert (Hlast : last_not_none (reverse (Some <$> (front ++ [e]))) = Some e).
  { by rewrite fmap_snoc, reverse_snoc. }
  assert (Hrev : reverse (not_none (Some <$> (front ++ [e])))
                 = Some e :: (Some <$> reverse front)).
  { by rewrite not_none_Some, <-fmap_reverse, reverse_snoc. }
  unfold _reverse_contour_manually. simpl length. simpl Nat.ltb. cbv iota.
  change (negb (is_moveTo "moveTo")) with false. cbv iota.
  rewrite py_index_0, bind_Ok.
  change (strip_close [("qCurveTo", Some <$> (front ++ [e]))])
    with [("qCurveTo", Some <$> (front ++ [e]))].
  cbv iota. cbn [collect_points].
  change (bool_decide ("qCurveTo" = "lineTo")) with false.
  change (bool_decide ("qCurveTo" = "curveTo")) with false.
  change (bool_decide ("qCurveTo" = "qCurveTo")) with true.
  cbv iota. rewrite Hlast, bind_Ok.
  change (py_index ([p0] ++ [Some e]) (-1)) with (Ok (Some e) : res operand).
  rewrite bind_Ok.
  change (reverse [("qCurveTo", Some <$> (front ++ [e]))])
    with [("qCurveTo", Some <$> (front ++ [e]))].
  cbn [reverse_loop].
  change (py_index ([p0] ++ [Some e]) (- (0 + 2))) with (Ok p0 : res operand).
  rewrite bind_Ok.
  change (bool_decide ("qCurveTo" = "lineTo")) with false.
  change (bool_decide ("qCurveTo" = "curveTo")) with false.
  change (bool_decide ("qCurveTo" = "qCurveTo")) with true.
  cbv iota zeta. by rewrite Hrev.
Qed.

(** X11. Reversing a [qCurveTo] whose operands are all points keeps every
    operand: the old end point becomes the first operand of the reversed
    command and the preceding point is appended, so the command grows by
    one operand; a second reversal does not give the contour back but a
    [qCurveTo] with two more operands than the original. *)
Theorem reverse_qcurve_grows (s : point) (front : list point) (e : point) :
  let contour := [("moveTo", [Some s]); ("qCurveTo", Some <$> (front ++ [e]))] in
  let once := [("moveTo", [Some e]);
               ("qCurveTo", Some <$> (e :: reverse front ++ [s]))] in
  let twice := [("moveTo", [Some s]);
                ("qCurveTo", Some <$> (s :: front ++ [e; e]))] in
  _reverse_contour_manually contour = Ok once
  /\ _reverse_contour_manually once = Ok twice
  /\ twice <> contour.
Proof.
  intros contour once twice. split; [|split].
  - subst contour once. rewrite reverse_explicit_qcurve.
    by rewrite fmap_cons, fmap_app.
  - subst once twice.
    pose proof (reverse_explicit_qcurve (Some e) (e :: reverse front) s) as Hsecond.
    etrans; [exact Hsecond|].
    rewrite reverse_cons, reverse_involutive.
    rewrite !fmap_cons, !fmap_app. csimpl. by rewrite <-app_assoc.
  - subst twice contour. intros Heq.
    assert (Hlen : length (Some <$> s :: front ++ [e; e])
                   = length (Some <$> (front ++ [e]))) by congruence.
    rewrite !length_fmap in Hlen. simpl in Hlen. rewrite !length_app in Hlen.
    simpl in Hlen. lia.
Qed.

(** ** What the Contour Reverser rejects *)

Lemma collect_points_short (operations : list command) :
  forall points points',
    collect_points operations points = Ok points' ->
    Exists records_no_point operations ->
    length points' < length points + length operations.
Proof.
  induction operations as [|[op operands] rest IH]; intros points points' H Hex;
    [by inversion Hex|].
  assert (Hrest : forall pts, collect_points rest pts = Ok points' ->
            length points' <= length pts + length rest).
  { intros pts Hpts. by apply collect_points_length in Hpts as [Hle _]. }
  simpl in H.
  assert (Hhead : forall p, collect_points rest (points ++ [p]) = Ok points' ->
            ~ records_no_point (op, operands) ->
            length points' < length points + length ((op, operands) :: rest)).
  { intros p Hp Hno. inversion Hex as [? ? Hu|? ? Hu]; subst; [done|].
    apply (IH _ _ Hp) in Hu. rewrite length_app in Hu. simpl in *.
    unfold command, operand in *. lia. }
  assert (Hskip : collect_points rest points = Ok points' ->
            length points' < length points + length ((op, operands) :: rest)).
  { intros Hp. apply Hrest in Hp. simpl. unfold command, operand in *. lia. }
  repeat case_bool_decide; subst.
  - destruct (py_index operands 0) as [p|]; [|done]. simpl in H.
    apply (Hhead p H). intros [(Hl & _)|(Hq & _)]; done.
  - destruct (py_index operands (-1)) as [p|]; [|done]. simpl in H.
    apply (Hhead p H). intros [(_ & Hc & _)|(Hq & _)]; done.
  - destruct (last_not_none (reverse operands)) as [q|] eqn:Hlast; [|by apply Hskip].
    apply (Hhead (Some q) H). intros [(_ & _ & Hq)|(_ & Hnone)]; [done|].
    simpl in Hnone. congruence.
  - by apply Hskip.
Qed.

Lemma reverse_loop_malformed (reversed_operations : list command) :
  Exists malformed_curveTo reversed_operations ->
  forall (i : Z) points result,
    raises (reverse_loop reversed_operations i points result).
Proof.
  induction 1 as [[op operands] rest [Hop Hlen]|[op operands] rest _ IH];
    intros i points result; simpl; apply raises_bind; intros prev _.
  - simpl in Hop, Hlen. subst op.
    change (bool_decide ("curveTo" = "lineTo")) with false.
    change (bool_decide ("curveTo" = "curveTo")) with true. cbv iota.
    destruct operands as [|a [|b [|e [|]]]]; by exists ValueError.
  - repeat case_bool_decide; try apply IH.
    destruct operands as [|a [|b [|e [|]]]]; try apply IH; by exists ValueError.
Qed.

(** X12. The Contour Reverser never returns on a [moveTo]-headed contour
    whose operations (after the trailing close is stripped) contain a
    command that records no point (an unrecognised operator, or a
    [qCurveTo] with no operand other than [None]) or a [curveTo] without
    exactly three operands: it raises.  A [moveTo] without operand followed
    by anything raises [IndexError]. *)
Theorem reverse_rejects (operands0 : list operand) (rest : list command) :
  (Exists records_no_point (strip_close rest)
   \/ Exists malformed_curveTo (strip_close rest) ->
   raises (_reverse_contour_manually (("moveTo", operands0) :: rest)))
  /\ (rest <> [] ->
      _reverse_contour_manually (("moveTo", []) :: rest) = Raise IndexError).
Proof.
  split.
  - intros Hex. unfold _reverse_contour_manually.
    destruct rest as [|c0 rest0]; [by destruct Hex as [Hex|Hex]; inversion Hex|].
    change (length (("moveTo", operands0) :: c0 :: rest0) <? 2) with false. cbv iota.
    change (negb (is_moveTo "moveTo")) with false. cbv iota.
    apply raises_bind. intros move_to_point _.
    destruct (strip_close (c0 :: rest0)) as [|c operations] eqn:Hops;
      [by destruct Hex as [Hex|Hex]; inversion Hex|].
    apply raises_bind. intros points Hpoints.
    apply raises_bind. intros start _.
    destruct Hex as [Hex|Hex].
    + apply (collect_points_short _ _ _ Hpoints) in Hex.
      apply reverse_loop_raises.
      * intros Hnil. apply (f_equal length) in Hnil.
        rewrite length_reverse in Hnil. done.
      * lia.
      * rewrite length_reverse. simpl length in *. lia.
    + apply reverse_loop_malformed.
      apply Exists_exists in Hex as (x & Hin & Hx). apply Exists_exists.
      exists x. split; [by apply elem_of_reverse | done].
  - intros Hrest. destruct rest as [|c0 rest0]; done.
Qed.

Lemma reverse_rejects_witness :
  raises (_reverse_contour_manually
            [("moveTo", [pt 0 0]); ("curveTo", [pt 1 1; pt 2 2]); ("endPath", [])])
  /\ raises (_reverse_contour_manually
               [("moveTo", [pt 0 0]); ("qCurveTo", [None]); ("lineTo", [pt 3 3])])
  /\ _reverse_contour_manually [("moveTo", []); ("lineTo", [pt 3 3])]
     = Raise IndexError.
Proof.
  split; [|split].
  - apply (proj1 (reverse_rejects [pt 0 0]
                    [("curveTo", [pt 1 1; pt 2 2]); ("endPath", [])])).
    right. left. split; [reflexivity | discriminate].
  - apply (proj1 (reverse_rejects [pt 0 0]
                    [("qCurveTo", [None]); ("lineTo", [pt 3 3])])).
    left. left. right. split; reflexivity.
  - apply (proj2 (reverse_rejects [] [("lineTo", [pt 3 3])])). discriminate.
Defined.

(** ** Split, then reverse *)

Lemma split_cases (contour : list command) :
  _split_contour_at_midpoint contour = contour
  \/ (Forall not_close (_split_contour_at_midpoint contour)
      /\ length (_split_contour_at_midpoint contour) < length contour).
Proof.
  destruct (Nat.ltb_spec (length contour) 3) as [Hshort|Hlong].
  { left. by apply split_short. }
  destruct (drawing_commands contour) as [|d ds] eqn:Hdc.
  { left. rewrite split_any, Hdc. by destruct (length contour <? 3). }
  right. destruct (split_rewritten_no_close contour Hlong) as (Hnc & Hlt & _);
    [by rewrite Hdc | done].
Qed.

(** X13. The treatment of one contour (split, then reverse), when it
    returns, gives either the contour unchanged or a list that holds no
    [closePath]/[endPath]; the result is never longer than the contour. *)
Theorem process_contour_result (contour out : list command)
    (Hout : process_contour contour = Ok out) :
  (out = contour \/ Forall not_close out)
  /\ length out <= length contour.
Proof.
  unfold process_contour in Hout.
  apply reverse_cases in Hout as [->|(Hk & Hlen & _)].
  - destruct (split_cases contour) as [->|[Hnc Hlt]].
    + split; [by left | lia].
    + split; [by right | lia].
  - assert (Hnc : Forall not_close out).
    { eapply Forall_impl; [exact Hk|]. apply reversed_kind_not_close. }
    split; [by right|].
    destruct (split_cases contour) as [Hsame|[_ Hlt]]; [rewrite Hsame in Hlen|]; lia.
Qed.

Lemma process_contour_result_witness :
  let out := [("moveTo", [pt 5 5]); ("lineTo", [pt 0 0])] in
  (out = [("moveTo", [pt 0 0]); ("lineTo", [pt 5 5])] \/ Forall not_close out)
  /\ length out <= 2.
Proof.
  intros out.
  exact (process_contour_result [("moveTo", [pt 0 0]); ("lineTo", [pt 5 5])]
           out eq_refl).
Defined.

(** ** The emitting loop, step by step *)

(** The four ways a step ends. *)
Lemma emit_step_inv (ascent : Z) (st st' : tracking) (op : string)
    (operands : list operand) (calls : list command) :
  emit_step ascent st (op, operands) = Ok (st', calls) ->
  (op = "moveTo"
   /\ exists p, py_index operands 0 = Ok p
        /\ st' = Tracking p p false
        /\ calls = [pen_call ascent (op, operands)])
  \/ (op = "closePath" /\ st' = no_contour
      /\ calls = if close_guard st then [("closePath", [])] else [])
  \/ (op = "endPath" /\ st' = no_contour /\ calls = [])
  \/ (is_moveTo op = false /\ is_close op = false
      /\ calls = [pen_call ascent (op, operands)]
      /\ contour_start st' = contour_start st
      /\ (qcurve_closed st' = false
          \/ exists s, contour_start st = Some s /\ last_point st' = Some s)).
Proof.
  unfold emit_step.
  destruct (decide (op = "moveTo")) as [->|Hm].
  { simpl. destruct (py_index operands 0) as [p|]; [|done]. simpl.
    intros H. inversion H; subst. left. split; [done|]. by exists p. }
  rewrite (bool_decide_eq_false_2 _ Hm).
  destruct (decide (op = "closePath")) as [->|Hc].
  { simpl. intros H. inversion H; subst. right. left. done. }
  destruct (decide (op = "endPath")) as [->|He].
  { simpl. intros H. inversion H; subst. right. right. left. done. }
  assert (Hopen : is_moveTo op = false /\ is_close op = false).
  { unfold is_moveTo, is_close. by rewrite !bool_decide_eq_false_2. }
  rewrite (bool_decide_eq_false_2 _ Hc), (bool_decide_eq_false_2 _ He).
  destruct Hopen as [Hom Hoc].
  destruct (bool_decide (op = "lineTo") || bool_decide (op = "curveTo")).
  { intros H. inversion H; subst. do 3 right. repeat split; try done. by left. }
  destruct (bool_decide (op = "qCurveTo")).
  - destruct (last operands) as [[q|]|]; destruct (contour_start st) as [s|] eqn:Hs;
      intros H; inversion H; subst; do 3 right; simpl; rewrite ?Hs;
      repeat split; try done; try (by left).
    right. by exists s.
  - intros H. inversion H; subst. do 3 right. repeat split; try done. by left.
Qed.

Lemma open_commands_app (a b : list command) :
  open_commands (a ++ b) = open_commands a ++ open_commands b.
Proof. apply List.filter_app. Qed.

Lemma emit_step_forwards (ascent : Z) (st st' : tracking) (cmd : command)
    (calls : list command) :
  emit_step ascent st cmd = Ok (st', calls) ->
  open_commands calls = pen_call ascent <$> open_commands [cmd]
  /\ Forall (fun c : command => c.1 <> "endPath") calls
  /\ Forall (fun c : command => c.1 = "closePath" -> c.2 = []) calls
  /\ length calls <= 1.
Proof.
  destruct cmd as [op operands]. intros Hstep.
  apply emit_step_inv in Hstep
    as [(-> & p & _ & _ & ->)|[(-> & _ & ->)|[(-> & _ & ->)|(Hm & Hc & -> & _)]]].
  - split; [reflexivity|]. repeat split; [| |simpl; lia];
      constructor; try constructor; done.
  - destruct (close_guard st); (split; [reflexivity|]);
      repeat split; try (simpl; lia); constructor; try constructor; done.
  - split; [reflexivity|]. repeat split; try (simpl; lia); constructor.
  - assert (Hne : op <> "endPath" /\ op <> "closePath").
    { unfold is_close in Hc. apply orb_false_iff in Hc as [H1 H2].
      apply bool_decide_eq_false in H1, H2. done. }
    unfold open_commands. simpl. rewrite Hc. simpl.
    split; [reflexivity|]. repeat split; try lia;
      constructor; try constructor; simpl; tauto.
Qed.

(** X15. Whenever the emitting loop returns, the calls other than
    [closePath] are exactly the input commands other than
    [closePath]/[endPath], in order, each with its points transformed; no
    [endPath] is ever forwarded, every forwarded [closePath] comes without
    operands, and there are no more calls than commands. *)
Theorem emit_loop_forwards (ascent : Z) (st st' : tracking)
    (value calls : list command)
    (Hrun : emit_loop ascent st value = Ok (st', calls)) :
  open_commands calls = pen_call ascent <$> open_commands value
  /\ Forall (fun c : command => c.1 <> "endPath") calls
  /\ Forall (fun c : command => c.1 = "closePath" -> c.2 = []) calls
  /\ length calls <= length value.
Proof.
  revert st st' calls Hrun.
  induction value as [|cmd value IH]; intros st st' calls Hrun; simpl in Hrun.
  { inversion Hrun; subst. repeat split; constructor. }
  destruct (emit_step ascent st cmd) as [[st1 out1]|] eqn:Hstep; [|done].
  simpl in Hrun.
  destruct (emit_loop ascent st1 value) as [[st2 out2]|] eqn:Hrest; [|done].
  simpl in Hrun. inversion Hrun; subst. clear Hrun.
  destruct (IH _ _ _ Hrest) as (Hopen & Hend & Hcl & Hlen).
  destruct (emit_step_forwards _ _ _ _ _ Hstep) as (Hopen1 & Hend1 & Hcl1 & Hlen1).
  change (cmd :: value) with ([cmd] ++ value).
  rewrite !open_commands_app, fmap_app, Hopen, Hopen1, !length_app, !Forall_app.
  repeat split; try done. simpl. lia.
Qed.

Lemma emit_loop_forwards_witness :
  open_commands [("moveTo", [pt 1 496]); ("lineTo", [pt 2 497])]
  = pen_call 500 <$> open_commands
      [("moveTo", [pt 1 4]); ("endPath", []); ("lineTo", [pt 2 3]); ("closePath", [])].
Proof.
  exact (proj1 (emit_loop_forwards 500 no_contour
    (Tracking None None false)
    [("moveTo", [pt 1 4]); ("endPath", []); ("lineTo", [pt 2 3]); ("closePath", [])]
    [("moveTo", [pt 1 496]); ("lineTo", [pt 2 497])] eq_refl)).
Defined.

(** ** Closes and contours *)

Lemma emit_step_close_count (ascent : Z) (st st' : tracking) (cmd : command)
    (calls : list command) :
  emit_step ascent st cmd = Ok (st', calls) ->
  close_calls calls + tracked st' <= moveTo_count [cmd] + tracked st.
Proof.
  destruct cmd as [op operands]. intros Hstep.
  apply emit_step_inv in Hstep
    as [(-> & p & _ & -> & ->)|[(-> & -> & ->)|[(-> & -> & ->)|(Hm & Hc & -> & Hs & _)]]].
  - unfold tracked. simpl. destruct p; simpl; lia.
  - unfold close_guard, tracked.
    destruct (contour_start st), (last_point st); simpl; try lia.
    destruct (_ || _); simpl; lia.
  - unfold tracked. simpl. lia.
  - assert (Hne : op <> "closePath").
    { unfold is_close in Hc. apply orb_false_iff in Hc as [H1 _].
      by apply bool_decide_eq_false in H1. }
    unfold close_calls, moveTo_count, tracked. simpl.
    rewrite Hm, Hs, (bool_decide_eq_false_2 _ Hne). simpl. lia.
Qed.

Lemma emit_loop_close_count (ascent : Z) (value : list command) :
  forall st st' calls,
    emit_loop ascent st value = Ok (st', calls) ->
    close_calls calls + tracked st' <= moveTo_count value + tracked st.
Proof.
  induction value as [|cmd value IH]; intros st st' calls Hrun; simpl in Hrun.
  { inversion Hrun; subst. simpl. lia. }
  destruct (emit_step ascent st cmd) as [[st1 out1]|] eqn:Hstep; [|done].
  simpl in Hrun.
  destruct (emit_loop ascent st1 value) as [[st2 out2]|] eqn:Hrest; [|done].
  simpl in Hrun. inversion Hrun; subst. clear Hrun.
  apply IH in Hrest. apply emit_step_close_count in Hstep.
  change (cmd :: value) with ([cmd] ++ value).
  unfold close_calls, moveTo_count in *.
  rewrite !List.filter_app, !length_app. lia.
Qed.

(** X16. The emitting loop never forwards more [closePath] calls than the
    command list has [moveTo] commands: a close needs a tracked [moveTo]
    point, and forwarding or dropping a close forgets it. *)
Theorem closes_at_most_moveTos (ascent : Z) (value : list command)
    (st : tracking) (calls : list command)
    (Hrun : emit_loop ascent no_contour value = Ok (st, calls)) :
  close_calls calls <= moveTo_count value.
Proof.
  apply emit_loop_close_count in Hrun. unfold tracked in Hrun at 2.
  simpl in Hrun. lia.
Qed.

Lemma closes_at_most_moveTos_witness :
  close_calls [("moveTo", [pt 0 0]); ("closePath", [])] <= 1.
Proof.
  exact (closes_at_most_moveTos 0
           [("moveTo", [pt 0 0]); ("closePath", []); ("closePath", [])]
           no_contour [("moveTo", [pt 0 0]); ("closePath", [])] eq_refl).
Defined.

Lemma points_close_refl (p : point) : _points_close p p = true.
Proof.
  destruct p as [x y]. unfold _points_close. cbn [fst snd].
  assert (Hzero : forall a : Q, Qle_bool (Qabs (a - a)) tolerance = true).
  { intros a. apply Qle_bool_iff.
    assert (Ha : (a - a == 0)%Q) by ring. by rewrite Ha. }
  by rewrite !Hzero.
Qed.

(** After any step, a raised [qcurve_closed] flag means that the current
    point is the tracked [moveTo] point. *)
Lemma qcurve_closed_after_step (ascent : Z) (st st' : tracking) (cmd : command)
    (calls : list command) :
  emit_step ascent st cmd = Ok (st', calls) ->
  qcurve_closed st' = true ->
  exists s, contour_start st' = Some s /\ last_point st' = Some s.
Proof.
  destruct cmd as [op operands]. intros Hstep Hq.
  apply emit_step_inv in Hstep
    as [(-> & p & _ & -> & _)|[(-> & -> & _)|[(-> & -> & _)|(_ & _ & _ & Hs & Hflag)]]];
    try done.
  destruct Hflag as [Hf|(s & Hst & Hl)]; [congruence|].
  exists s. by rewrite Hs.
Qed.

(** X17. In every state the emitting loop reaches from the start, the
    [qcurve_closed] flag adds nothing to the close test: the guard of
    [transform_pen.closePath()] holds exactly when the current point is
    within the tolerance of the tracked [moveTo] point, and that alone
    decides whether a following [closePath] is forwarded. *)
Theorem qcurve_flag_redundant (ascent : Z) (value : list command)
    (st : tracking) (calls : list command)
    (Hrun : emit_loop ascent no_contour value = Ok (st, calls)) :
  close_guard st = within_tolerance st
  /\ forall operands,
       emit_loop ascent no_contour (value ++ [("closePath", operands)])
       = Ok (no_contour,
             calls ++ if within_tolerance st then [("closePath", [])] else []).
Proof.
  assert (Hflag : qcurve_closed st = true ->
            exists s, contour_start st = Some s /\ last_point st = Some s).
  { destruct value as [|cmd value _] using rev_ind.
    - inversion Hrun; subst. done.
    - apply emit_loop_snoc in Hrun as (st0 & out0 & out1 & _ & Hstep & _).
      by apply (qcurve_closed_after_step _ _ _ _ _ Hstep). }
  assert (Hguard : close_guard st = within_tolerance st).
  { unfold close_guard, within_tolerance.
    destruct (qcurve_closed st) eqn:Hq.
    - destruct (Hflag eq_refl) as (s & -> & ->).
      by rewrite points_close_refl.
    - destruct (contour_start st), (last_point st); try done.
      by rewrite orb_false_r. }
  split; [done|]. intros operands.
  rewrite emit_loop_app, Hrun. simpl. unfold emit_step. simpl.
  by rewrite Hguard, app_nil_r.
Qed.

Lemma qcurve_flag_redundant_witness :
  emit_loop 0 no_contour
    [("moveTo", [pt 0 0]); ("qCurveTo", [pt 4 4; None]); ("closePath", [])]
  = Ok (no_contour,
        [("moveTo", [pt 0 0]); ("qCurveTo", [pt 4 (-4); None]); ("closePath", [])]).
Proof.
  exact (proj2 (qcurve_flag_redundant 0
    [("moveTo", [pt 0 0]); ("qCurveTo", [pt 4 4; None])]
    (Tracking (pt 0 0) (pt 0 0) true)
    [("moveTo", [pt 0 0]); ("qCurveTo", [pt 4 (-4); None])] eq_refl) []).
Defined.

(** ** The pipeline and closed paths *)

Lemma mapM_Ok_Forall2 {A B} (f : A -> res B) (l : list A) :
  forall l', mapM f l = Ok l' -> Forall2 (fun x y => f x = Ok y) l l'.
Proof.
  induction l as [|x l IH]; intros l' H; simpl in H.
  - inversion H; subst. constructor.
  - destruct (f x) as [y|] eqn:Hx; [|done]. simpl in H.
    destruct (mapM f l) as [k|] eqn:Hl; [|done]. simpl in H.
    inversion H; subst. constructor; [done | by apply IH].
Qed.

Lemma emit_loop_no_close (ascent : Z) (value : list command) :
  Forall not_close value ->
  forall st st' calls,
    emit_loop ascent st value = Ok (st', calls) ->
    Forall not_close calls.
Proof.
  induction 1 as [|[op operands] value Hcmd _ IH]; intros st st' calls Hrun;
    simpl in Hrun.
  { inversion Hrun; subst. constructor. }
  destruct (emit_step ascent st (op, operands)) as [[st1 out1]|] eqn:Hstep; [|done].
  simpl in Hrun.
  destruct (emit_loop ascent st1 value) as [[st2 out2]|] eqn:Hrest; [|done].
  simpl in Hrun. inversion Hrun; subst. clear Hrun.
  apply Forall_app. split; [|by eapply IH].
  unfold not_close in Hcmd. simpl in Hcmd.
  apply emit_step_inv in Hstep
    as [(-> & p & _ & _ & ->)|[(-> & _ & _)|[(-> & _ & _)|(_ & _ & -> & _)]]];
    try done; by repeat constructor.
Qed.

(** A call forwarded for a command that is not a close carries the
    operator of a command of the input. *)
Lemma emit_loop_pen_operators (ascent : Z) (value : list command) :
  Forall not_close value ->
  forall st st' calls,
    emit_loop ascent st value = Ok (st', calls) ->
    Forall (fun c : command => exists cmd, cmd ∈ value /\ c.1 = cmd.1) calls.
Proof.
  induction 1 as [|[op operands] value Hcmd _ IH]; intros st st' calls Hrun;
    simpl in Hrun.
  { inversion Hrun; subst. constructor. }
  destruct (emit_step ascent st (op, operands)) as [[st1 out1]|] eqn:Hstep; [|done].
  simpl in Hrun.
  destruct (emit_loop ascent st1 value) as [[st2 out2]|] eqn:Hrest; [|done].
  simpl in Hrun. inversion Hrun; subst. clear Hrun.
  apply Forall_app. split.
  - unfold not_close in Hcmd. simpl in Hcmd.
    apply emit_step_inv in Hstep
      as [(-> & p & _ & _ & ->)|[(-> & _ & _)|[(-> & _ & _)|(_ & _ & -> & _)]]];
      try done; constructor; try constructor;
      eexists; (split; [by left | done]).
  - eapply Forall_impl; [by eapply IH|].
    intros c (cmd & Hin & Heq). exists cmd. split; [by right | done].
Qed.

Lemma split_elements (contour : list command) (x : command) :
  x ∈ _split_contour_at_midpoint contour -> x ∈ contour.
Proof.
  rewrite split_any. destruct (length contour <? 3); [done|].
  destruct (drawing_commands contour) as [|d ds] eqn:Hdc; [done|].
  rewrite <-Hdc. clear d ds Hdc. intros Hx.
  apply elem_of_app in Hx as [Hx|Hx].
  - unfold last_moveTo in Hx.
    destruct (last _) as [m|] eqn:Hlast; simpl in Hx; [|by inversion Hx].
    apply list_elem_of_singleton in Hx as ->.
    apply last_Some in Hlast as [front Hfront].
    assert (Hin : In m (List.filter (fun c : command => is_moveTo c.1) contour)).
    { rewrite Hfront. apply in_or_app. right. by left. }
    apply List.filter_In in Hin as [Hin _]. by apply list_elem_of_In.
  - apply elem_of_take in Hx as (i & Hx & _).
    apply list_elem_of_lookup_2, list_elem_of_In in Hx.
    unfold drawing_commands in Hx.
    apply List.filter_In in Hx as [Hin _]. by apply list_elem_of_In.
Qed.

Lemma reversed_kind_pen_operator (c : command) :
  reversed_kind c -> pen_operator c.1.
Proof. unfold pen_operator. intros [H|[H|[H|H]]]; tauto. Qed.

Lemma process_contour_operators (contour out : list command) :
  Forall (fun c : command => pen_operator c.1) contour ->
  process_contour contour = Ok out ->
  Forall (fun c : command => pen_operator c.1) out.
Proof.
  intros Hops Hout. unfold process_contour in Hout.
  apply reverse_cases in Hout as [->|(Hk & _)].
  - apply Forall_forall. intros x Hx. apply split_elements in Hx.
    by apply (proj1 (Forall_forall _ _) Hops).
  - eapply Forall_impl; [exact Hk|]. apply reversed_kind_pen_operator.
Qed.

Lemma Forall_of_concat {A} (P : A -> Prop) (ls : list (list A)) :
  Forall P (concat ls) -> Forall (Forall P) ls.
Proof.
  induction ls as [|l ls IH]; simpl; [constructor|].
  intros H. apply Forall_app in H as [Hl Hls]. constructor; auto.
Qed.

Lemma process_contour_no_close (contour out : list command) :
  3 <= length contour -> drawing_commands contour <> [] ->
  process_contour contour = Ok out ->
  Forall not_close out.
Proof.
  intros Hlen Hdraw Hout. unfold process_contour in Hout.
  destruct (split_rewritten_no_close contour Hlen Hdraw) as (Hnc & _ & _).
  apply reverse_cases in Hout as [->|(Hk & _)]; [done|].
  eapply Forall_impl; [exact Hk|]. apply reversed_kind_not_close.
Qed.

(** X18. For a glyph recorded with the six operators of the pen protocol,
    when every contour has at least three commands, one of them a drawing
    command, the script forwards no [closePath] (and no [endPath]) to the
    pen: the Splitter drops the trailing close of each such contour before
    the emitting loop could test it. *)
Theorem glyph_path_open (value : list command) (ascent : Z)
    (calls : list command)
    (Hoperators : Forall (fun c : command => pen_operator c.1) value)
    (Hcontours : Forall (fun c => 3 <= length c /\ drawing_commands c <> [])
                   (contours_of value))
    (Hrun : _glyph_to_svg_commands value ascent = Ok calls) :
  no_close calls
  /\ Forall not_close calls
  /\ Forall (fun c : command => pen_operator c.1) calls.
Proof.
  unfold _glyph_to_svg_commands in Hrun.
  rewrite segment_loop_segment in Hrun. fold (contours_of value) in Hrun.
  destruct (mapM process_contour (contours_of value)) as [outs|] eqn:Hmap;
    [|done].
  simpl in Hrun.
  destruct (emit_loop ascent no_contour (concat outs)) as [[st out]|] eqn:Hemit;
    [|done].
  simpl in Hrun. inversion Hrun; subst. clear Hrun.
  assert (Houts : Forall not_close (concat outs)).
  { apply mapM_Ok_Forall2 in Hmap. apply Forall_concat.
    revert Hcontours Hmap. clear. generalize (contours_of value).
    intros contours Hcs Hmap.
    revert Hcs. induction Hmap as [|c out cs outs' Hc _ IH]; intros Hcs.
    - constructor.
    - inversion Hcs as [|? ? [Hlen Hdraw] Hcs']; subst.
      constructor; [|by apply IH].
      by apply (process_contour_no_close c). }
  assert (Hnc : Forall not_close calls)
    by (by apply (emit_loop_no_close _ _ Houts) in Hemit).
  split; [|split; [done|]].
  - eapply Forall_impl; [exact Hnc|]. intros c Hc Heq.
    unfold not_close in Hc. by rewrite Heq in Hc.
  - apply (emit_loop_pen_operators _ _ Houts) in Hemit.
    assert (Hprocessed : Forall (fun c : command => pen_operator c.1) (concat outs)).
    { apply mapM_Ok_Forall2 in Hmap. apply Forall_concat.
      assert (Hcs : Forall (Forall (fun c : command => pen_operator c.1))
                      (contours_of value)).
      { apply Forall_of_concat. unfold contours_of.
        by rewrite concat_segment. }
      revert Hcs Hmap. clear. generalize (contours_of value).
      intros contours Hcs Hmap.
      revert Hcs. induction Hmap as [|c out cs outs' Hc _ IH]; intros Hcs.
      - constructor.
      - inversion Hcs as [|? ? Hops Hcs']; subst.
        constructor; [|by apply IH].
        by apply (process_contour_operators c). }
    eapply Forall_impl; [exact Hemit|].
    intros c (cmd & Hin & ->).
    by apply (proj1 (Forall_forall _ _) Hprocessed).
Qed.

Lemma glyph_path_open_witness :
  no_close [("moveTo", [pt 100 450]); ("lineTo", [pt 50 500]); ("lineTo", [pt 0 500])].
Proof.
  refine (proj1 (glyph_path_open retrace_outline 500 _ _ _ eq_refl)).
  - repeat constructor; unfold pen_operator; simpl; tauto.
  - repeat constructor; simpl; try lia; discriminate.
Defined.

(** ** Vertical metrics, all cases *)

(** X19. [get_vertical_metrics] always returns [head.unitsPerEm] first;
    with an [hhea] table its ascent and descent are returned as they are,
    zero included, whatever [OS/2] holds; without [hhea] the typographic
    ascender and descender of [OS/2] are returned; the fallback is used
    only when both tables are missing. *)
Theorem vertical_metrics_precedence (f : font) :
  get_vertical_metrics f
  = match hhea f, os2 f with
    | Some (ascent, descent), _ => (unitsPerEm f, ascent, descent)
    | None, Some (typo_asc, typo_desc) => (unitsPerEm f, typo_asc, typo_desc)
    | None, None => (unitsPerEm f, unitsPerEm f, (- unitsPerEm f) `div` 4)%Z
    end.
Proof.
  unfold get_vertical_metrics.
  destruct (hhea f) as [[a d]|], (os2 f) as [[ta td]|]; reflexivity.
Qed.

(** X20. With the fallback metrics of a font whose [unitsPerEm] is
    positive, the descent is negative, the ascent positive, and the
    vertical extent [ascent - descent] used for the SVG height lies between
    [5/4] of [unitsPerEm] and one unit more. *)
Theorem fallback_vertical_extent (f : font)
    (Hpos : (0 < unitsPerEm f)%Z)
    (Hhhea : hhea f = None)
    (Hos2 : os2 f = None) :
  let '(units_per_em, ascent, descent) := get_vertical_metrics f in
  (descent < 0 < ascent)%Z
  /\ (5 * units_per_em <= 4 * (ascent - descent) < 5 * units_per_em + 4)%Z.
Proof.
  rewrite fallback_metrics by done.
  set (u := unitsPerEm f) in *.
  pose proof (Z.div_mod (- u) 4 ltac:(lia)) as Hdm.
  pose proof (Z.mod_pos_bound (- u) 4 ltac:(lia)) as Hbound.
  lia.
Qed.

Lemma fallback_vertical_extent_witness :
  let '(units_per_em, ascent, descent) := get_vertical_metrics (Font 2048 None None) in
  (descent < 0 < ascent)%Z
  /\ (5 * units_per_em <= 4 * (ascent - descent) < 5 * units_per_em + 4)%Z.
Proof.
  exact (fallback_vertical_extent (Font 2048 None None)
           ltac:(simpl; lia) eq_refl eq_refl).
Defined.

(** ** File names *)

Lemma special_filenames_lookup (codepoint : Z) (name : string) :
  SPECIAL_FILENAMES !! codepoint = Some name ->
  In (codepoint, name) special_filenames_items.
Proof.
  intros H. apply list_elem_of_In.
  by apply (elem_of_list_to_map_2 (M := gmap Z)).
Qed.

Lemma special_filenames_cover :
  forallb (fun c : Z =>
             ascii_alnum c
             || match SPECIAL_FILENAMES !! c with
                | Some name => snake_case name
                | None => false
                end)
          (seqZ 32 95) = true.
Proof. vm_compute. reflexivity. Qed.

Lemma special_filenames_distinct :
  forallb (fun x : Z * string =>
             forallb (fun y : Z * string =>
                        implb (String.eqb x.2 y.2) (Z.eqb x.1 y.1))
                     special_filenames_items)
          special_filenames_items = true.
Proof. vm_compute. reflexivity. Qed.

Lemma special_filenames_injective (c1 c2 : Z) (name : string) :
  SPECIAL_FILENAMES !! c1 = Some name ->
  SPECIAL_FILENAMES !! c2 = Some name ->
  c1 = c2.
Proof.
  intros H1 H2.
  apply special_filenames_lookup in H1, H2.
  pose proof special_filenames_distinct as Hd.
  rewrite forallb_forall in Hd. specialize (Hd _ H1).
  rewrite forallb_forall in Hd. specialize (Hd _ H2). simpl in Hd.
  rewrite String.eqb_refl in Hd. simpl in Hd. by apply Z.eqb_eq.
Qed.

Lemma map_string_chars (f : ascii -> ascii) (s : string) :
  String.list_ascii_of_string (map_string f s)
  = List.map f (String.list_ascii_of_string s).
Proof. induction s as [|a s IH]; simpl; [done|]. by rewrite IH. Qed.

Lemma name_char_clean (a : ascii) :
  name_char a <> " "%char /\ name_char a <> "-"%char
  /\ ((65 <=? nat_of_ascii (name_char a)) && (nat_of_ascii (name_char a) <=? 90)
      = false).
Proof.
  destruct a as [[] [] [] [] [] [] [] []]; vm_compute; repeat split; discriminate.
Qed.

Lemma name_branch_chars (unicode_name : string) :
  String.list_ascii_of_string (replace "-" "_" (replace " " "_" (lower unicode_name)))
  = List.map name_char (String.list_ascii_of_string unicode_name).
Proof.
  unfold replace, lower. rewrite !map_string_chars, !List.map_map. done.
Qed.

Section SanitizeProperties.
Context (isalpha isupper isalnum : Z -> bool).
Context (unicodedata_name : Z -> string).
Context (chr : Z -> string).

#[local] Abbreviation sanitize :=
  (sanitize_filename isalpha isupper isalnum unicodedata_name chr).

(** X21. Every printable ASCII character (code points 32 to 126) that is
    neither a digit nor a letter is a key of [SPECIAL_FILENAMES]; when
    Python does not class it as a letter or digit either,
    [sanitize_filename] returns its entry, a name made only of lower-case
    ASCII letters and underscores, without consulting [unicodedata]. *)
Theorem sanitize_ascii_punctuation (codepoint : Z)
    (Hrange : (32 <= codepoint <= 126)%Z)
    (Hascii : ascii_alnum codepoint = false)
    (Hupper : isalpha codepoint && isupper codepoint = false)
    (Halnum : isalnum codepoint = false) :
  exists name,
    SPECIAL_FILENAMES !! codepoint = Some name
    /\ sanitize codepoint = name
    /\ snake_case name = true.
Proof.
  pose proof special_filenames_cover as Hcover.
  rewrite forallb_forall in Hcover.
  specialize (Hcover codepoint).
  rewrite Hascii in Hcover. cbn [orb] in Hcover.
  assert (Hin : In codepoint (seqZ 32 95)).
  { apply list_elem_of_In, elem_of_seqZ. lia. }
  specialize (Hcover Hin).
  unfold sanitize_filename. rewrite Hupper, Halnum.
  destruct (SPECIAL_FILENAMES !! codepoint) as [name|]; [|done].
  by exists name.
Qed.

(** X22. No two keys of [SPECIAL_FILENAMES] share a name, so
    [sanitize_filename] gives different file names to different special
    characters. *)
Theorem sanitize_special_injective (c1 c2 : Z)
    (Hkey1 : is_Some (SPECIAL_FILENAMES !! c1))
    (Hkey2 : is_Some (SPECIAL_FILENAMES !! c2))
    (Hupper1 : isalpha c1 && isupper c1 = false)
    (Hupper2 : isalpha c2 && isupper c2 = false)
    (Halnum1 : isalnum c1 = false)
    (Halnum2 : isalnum c2 = false)
    (Hsame : sanitize c1 = sanitize c2) :
  c1 = c2.
Proof.
  destruct Hkey1 as [n1 H1], Hkey2 as [n2 H2].
  unfold sanitize_filename in Hsame.
  rewrite Hupper1, Hupper2, Halnum1, Halnum2, H1, H2 in Hsame. subst n2.
  by apply (special_filenames_injective c1 c2 n1).
Qed.

(** X23. For a character that is no letter or digit, is not in
    [SPECIAL_FILENAMES] and has a Unicode name, [sanitize_filename] returns
    the name lower-cased with spaces and hyphens turned into underscores:
    the result has the length of the name and holds no space, no hyphen and
    no upper-case ASCII letter. *)
Theorem sanitize_unicode_name (codepoint : Z)
    (Hupper : isalpha codepoint && isupper codepoint = false)
    (Halnum : isalnum codepoint = false)
    (Hkey : SPECIAL_FILENAMES !! codepoint = None)
    (Hname : unicodedata_name codepoint <> "") :
  let result := sanitize codepoint in
  result = replace "-" "_" (replace " " "_" (lower (unicodedata_name codepoint)))
  /\ String.length result = String.length (unicodedata_name codepoint)
  /\ ~ has_char " " result
  /\ ~ has_char "-" result
  /\ forall a, has_char a result ->
       (65 <=? nat_of_ascii a) && (nat_of_ascii a <=? 90) = false.
Proof.
  intros result.
  assert (Hres : result
            = replace "-" "_" (replace " " "_" (lower (unicodedata_name codepoint)))).
  { subst result. unfold sanitize_filename. rewrite Hupper, Halnum, Hkey.
    destruct (String.eqb_spec (unicodedata_name codepoint) ""); done. }
  split; [done|].
  assert (Hchars : forall a, has_char a result -> exists b, a = name_char b).
  { intros a Ha. unfold has_char in Ha. rewrite Hres, name_branch_chars in Ha.
    apply in_map_iff in Ha as (b & <- & _). by exists b. }
  split.
  { rewrite Hres. unfold replace, lower.
    generalize (unicodedata_name codepoint). intros s.
    induction s as [|a s IH]; simpl; [done|]. by rewrite IH. }
  split; [|split].
  - intros Ha. apply Hchars in Ha as [b Hb].
    by destruct (name_char_clean b) as (H1 & _ & _).
  - intros Ha. apply Hchars in Ha as [b Hb].
    by destruct (name_char_clean b) as (_ & H2 & _).
  - intros a Ha. apply Hchars in Ha as [b ->].
    by destruct (name_char_clean b) as (_ & _ & H3).
Qed.
End SanitizeProperties.

Lemma sanitize_ascii_punctuation_witness :
  exists name,
    SPECIAL_FILENAMES !! 36%Z = Some name
    /\ sanitize_filename (fun _ => false) (fun _ => false) (fun _ => false)
         (fun _ => "") (fun _ => "$") 36 = name
    /\ snake_case name = true.
Proof.
  apply (sanitize_ascii_punctuation (fun _ => false) (fun _ => false)
           (fun _ => false) (fun _ => "") (fun _ => "$") 36%Z);
    [lia | reflexivity | reflexivity | reflexivity].
Defined.

Lemma sanitize_special_injective_witness : 36%Z = 36%Z.
Proof.
  apply (sanitize_special_injective (fun _ => false) (fun _ => false)
           (fun _ => false) (fun _ => "") (fun _ => "$") 36%Z 36%Z);
    try reflexivity; by exists "dollar".
Defined.

Lemma sanitize_unicode_name_witness :
  sanitize_filename (fun _ => false) (fun _ => false) (fun _ => false)
    (fun _ => "EN DASH") (fun _ => "?") 8211
  = "en_dash".
Proof.
  destruct (sanitize_unicode_name (fun _ => false) (fun _ => false)
              (fun _ => false) (fun _ => "EN DASH") (fun _ => "?") 8211%Z)
    as [Hres _]; [reflexivity | reflexivity | reflexivity | discriminate |].
  rewrite Hres. reflexivity.
Defined.

(** ** Counting contours and calls *)

Lemma segment_count (value : list command) :
  forall c current,
    length (segment value [] (c :: current)) = S (moveTo_count value).
Proof.
  unfold moveTo_count.
  induction value as [|[operator operands] rest IH]; intros c current; simpl; [done|].
  unfold is_moveTo. simpl. case_bool_decide; simpl.
  - rewrite (segment_acc rest [_]). simpl. by rewrite IH.
  - by rewrite IH.
Qed.

(** X24. The Segmenter cuts one contour per [moveTo], plus one for the
    commands that come before the first [moveTo], if there are any. *)
Theorem contours_count (value : list command) :
  length (contours_of value)
  = match value with
    | [] => 0
    | first :: _ =>
        if is_moveTo first.1 then moveTo_count value else S (moveTo_count value)
    end.
Proof.
  unfold contours_of. destruct value as [|[operator operands] rest]; [done|].
  simpl. unfold moveTo_count, is_moveTo. simpl.
  case_bool_decide; simpl; by rewrite segment_count.
Qed.

Lemma segment_contours_shape_witness :
  Forall moveTo_headed
    (contours_of [("moveTo", [pt 0 0]); ("lineTo", [pt 1 1]); ("moveTo", [pt 2 2])]).
Proof.
  apply (proj2 (proj2 (segment_contours_shape
    [("moveTo", [pt 0 0]); ("lineTo", [pt 1 1]); ("moveTo", [pt 2 2])]))).
  eexists _, _. split; reflexivity.
Defined.

Lemma processed_length (contours outs : list (list command)) :
  Forall2 (fun c out => process_contour c = Ok out) contours outs ->
  length (concat outs) <= length (concat contours).
Proof.
  induction 1 as [|c out cs outs Hc _ IH]; simpl; [done|].
  rewrite !length_app.
  assert (length out <= length c).
  { apply reverse_cases in Hc as [->|(_ & Hlen & _)].
    - destruct (split_cases c) as [->|[_ Hlt]]; lia.
    - destruct (split_cases c) as [Hsame|[_ Hlt]]; [rewrite Hsame in Hlen|]; lia. }
  lia.
Qed.

(** X25. The pipeline never emits more pen calls than the outline has
    commands; an outline without commands gives an empty path. *)
Theorem glyph_calls_bounded (value : list command) (ascent : Z)
    (calls : list command)
    (Hrun : _glyph_to_svg_commands value ascent = Ok calls) :
  length calls <= length value
  /\ (value = [] -> calls = []).
Proof.
  assert (Hlen : length calls <= length value).
  { unfold _glyph_to_svg_commands in Hrun.
    rewrite segment_loop_segment in Hrun. fold (contours_of value) in Hrun.
    destruct (mapM process_contour (contours_of value)) as [outs|] eqn:Hmap;
      [|done].
    simpl in Hrun.
    destruct (emit_loop ascent no_contour (concat outs)) as [[st out]|] eqn:Hemit;
      [|done].
    simpl in Hrun. inversion Hrun; subst. clear Hrun.
    apply mapM_Ok_Forall2, processed_length in Hmap.
    unfold contours_of in Hmap. rewrite concat_segment in Hmap. simpl in Hmap.
    assert (Hcalls : length calls <= length (concat outs)).
    { revert Hemit. generalize no_contour (concat outs). clear.
      intros st0 l. revert st0 st calls.
      induction l as [|cmd l IH]; intros st0 st calls Hrun; simpl in Hrun.
      { inversion Hrun; subst. done. }
      destruct (emit_step ascent st0 cmd) as [[st1 out1]|] eqn:Hstep; [|done].
      simpl in Hrun.
      destruct (emit_loop ascent st1 l) as [[st2 out2]|] eqn:Hrest; [|done].
      simpl in Hrun. inversion Hrun; subst.
      apply IH in Hrest. apply emit_step_forwards in Hstep as (_ & _ & _ & Hone).
      rewrite length_app. simpl. lia. }
    lia. }
  split; [done|]. intros ->. destruct calls; [done | simpl in Hlen; lia].
Qed.

Lemma glyph_calls_bounded_witness :
  length [("moveTo", [pt 100 450]); ("lineTo", [pt 50 500]); ("lineTo", [pt 0 500])]
  <= length retrace_outline.
Proof.
  exact (proj1 (glyph_calls_bounded retrace_outline 500 _ eq_refl)).
Defined.

(** ** The Path Emitter and the flip, over whole command lists *)

Lemma emit_loop_transformed (ascent : Z) (value : list command) :
  forall st st' calls,
    emit_loop ascent st value = Ok (st', calls) ->
    open_commands calls = pen_call ascent <$> open_commands value
    /\ Forall (fun c : command => is_close c.1 = true -> c.2 = []) calls.
Proof.
  induction value as [|cmd value IH]; intros st st' calls Hrun; simpl in Hrun.
  { inversion Hrun; subst. split; [done | constructor]. }
  destruct (emit_step ascent st cmd) as [[st1 out1]|] eqn:Hstep; [|done].
  simpl in Hrun.
  destruct (emit_loop ascent st1 value) as [[st2 out2]|] eqn:Hrest; [|done].
  simpl in Hrun. inversion Hrun; subst. clear Hrun.
  destruct (IH _ _ _ Hrest) as (Hopen & Hcl).
  destruct (emit_step_forwards _ _ _ _ _ Hstep) as (Hopen1 & Hend1 & Hcl1 & _).
  change (cmd :: value) with ([cmd] ++ value).
  rewrite !open_commands_app, fmap_app, Hopen, Hopen1.
  split; [done|]. apply Forall_app. split; [|done].
  clear -Hend1 Hcl1.
  induction out1 as [|c out1 IH]; [constructor|].
  inversion Hend1; inversion Hcl1; subst. constructor; [|by apply IH].
  unfold is_close. intros Hc. apply orb_true_iff in Hc as [Hc|Hc];
    apply bool_decide_eq_true in Hc; [auto | done].
Qed.

(** C6. The Path Emitter maps every input point [(x, y)] to
    [(x, ascent - y)]: whenever the emitting loop returns, the calls that
    carry points are, in order, the input commands other than
    [closePath]/[endPath], each operand sent through the matrix of
    [TransformPen], which takes [(x, y)] to [(x, ascent - y)], and a
    forwarded close carries no point; the same holds of
    [_glyph_to_svg_commands] on the split and reversed contours.  With
    [ascent = 750] the point [(200, 300)] is emitted as [(200, 450)]. *)
Theorem path_emitter_flip :
  (forall (ascent : Z) (x y : Q),
     let p := transformPoint (flip_matrix ascent) (x, y) in
     (p.1 == x)%Q /\ (p.2 == inject_Z ascent - y)%Q)
  /\ (forall (ascent : Z) (st st' : tracking) (value calls : list command),
        emit_loop ascent st value = Ok (st', calls) ->
        open_commands calls
        = (fun cmd : command =>
             (cmd.1, (fun o : operand =>
                        transformPoint (flip_matrix ascent) <$> o) <$> cmd.2))
          <$> open_commands value
        /\ Forall (fun c : command => is_close c.1 = true -> c.2 = []) calls)
  /\ (forall (value : list command) (ascent : Z) (calls : list command),
        _glyph_to_svg_commands value ascent = Ok calls ->
        exists processed,
          mapM process_contour (contours_of value) = Ok processed
          /\ open_commands calls
             = (fun cmd : command =>
                  (cmd.1, (fun o : operand =>
                             transformPoint (flip_matrix ascent) <$> o) <$> cmd.2))
               <$> open_commands (concat processed))
  /\ emit_loop 750 no_contour [("moveTo", [pt 200 300])]
     = Ok (Tracking (pt 200 300) (pt 200 300) false, [("moveTo", [pt 200 450])])
  /\ _glyph_to_svg_commands [("moveTo", [pt 200 300])] 750
     = Ok [("moveTo", [pt 200 450])].
Proof.
  split; [|split; [|split; [|split]]].
  - intros ascent x y. simpl. split; ring.
  - intros ascent st st' value calls Hrun.
    by apply emit_loop_transformed in Hrun.
  - intros value ascent calls Hrun. unfold _glyph_to_svg_commands in Hrun.
    rewrite segment_loop_segment in Hrun. fold (contours_of value) in Hrun.
    destruct (mapM process_contour (contours_of value)) as [outs|]; [|done].
    simpl in Hrun.
    destruct (emit_loop ascent no_contour (concat outs)) as [[st out]|] eqn:Hemit;
      [|done].
    simpl in Hrun. inversion Hrun; subst. exists outs. split; [done|].
    by apply emit_loop_transformed in Hemit as [Hopen _].
  - reflexivity.
  - reflexivity.
Qed.

Lemma path_emitter_flip_witness :
  open_commands [("moveTo", [pt 200 450]); ("lineTo", [pt 10 750])]
  = (fun cmd : command =>
       (cmd.1, (fun o : operand =>
                  transformPoint (flip_matrix 750) <$> o) <$> cmd.2))
    <$> open_commands [("moveTo", [pt 200 300]); ("lineTo", [pt 10 0]); ("closePath", [])].
Proof.
  exact (proj1 (proj1 (proj2 path_emitter_flip) 750%Z no_contour no_contour
    [("moveTo", [pt 200 300]); ("lineTo", [pt 10 0]); ("closePath", [])]
    [("moveTo", [pt 200 450]); ("lineTo", [pt 10 750])] eq_refl)).
Defined.
